(** * plumbum/localcmd.py: local commands, pipelines, redirections, futures

    A shallow embedding of [plumbum/localcmd.py] and the properties of its
    scoped context stacks, its execution engine and its futures.

    Python objects that are mutated in place (the environment stack, the
    directory stack, [Popen] handles) live in an explicit state that every
    operation threads; an exception leaves the state as the statements
    executed before it made it. *)

From Stdlib Require Import ZArith Ascii String.
From stdpp Require Import base option list strings gmap.

(** ** Exceptions and the state-and-exception monad *)

(** The exceptions the module raises or lets through.  [IOError] is what the
    builtin [open] raises (the stream access error of a redirection), [OSError] what [os.chdir] and [Popen] raise,
    [ValueError] what an operation on a closed file raises. *)
Inductive exn : Type :=
| ProcessExecutionError (cmdline : list string) (retcode : option Z) (stdout stderr : string)
| IOError (filename : string)
| OSError (filename : string)
| KeyError (key : string)
| IndexError
| AttributeError
| ValueError.

Inductive result (A : Type) : Type :=
| Ok (a : A)
| Raise (e : exn).
Arguments Ok {A} a.
Arguments Raise {A} e.

Definition is_ok {A} (r : result A) : bool :=
  match r with Ok _ => true | Raise _ => false end.

(** A computation over a mutable state [S]: the state it leaves and either a
    value or the exception that escaped. *)
Definition M (S A : Type) : Type := S → S * result A.

Definition ret {S A} (a : A) : M S A := λ s, (s, Ok a).
Definition raise {S A} (e : exn) : M S A := λ s, (s, Raise e).
Definition bind {S A B} (m : M S A) (k : A → M S B) : M S B :=
  λ s, match m s with
       | (s', Ok a) => k a s'
       | (s', Raise e) => (s', Raise e)
       end.
Definition get_state {S} : M S S := λ s, (s, Ok s).
Definition modify {S} (f : S → S) : M S unit := λ s, (f s, Ok tt).

Notation "'let*' x := m 'in' k" := (bind m (λ x, k))
  (at level 10, x name, m at level 100, k at level 200, only parsing).

(** Runs [m] on a component of a larger state. *)
Definition zoom {S T A} (get : S → T) (set : T → S → S) (m : M T A) : M S A :=
  λ s, let '(t, r) := m (get s) in (set t s, r).

(** [with cm: body] for a [@contextmanager] generator of the shape
    [before; try: yield finally: after].  An exception in [before] escapes
    ahead of the [try]; [after] runs on every exit of [body], and an
    exception of its own replaces the outcome of [body]. *)
Definition scoped {S A} (before after : M S unit) (body : M S A) : M S A :=
  λ s, match before s with
       | (s1, Raise e) => (s1, Raise e)
       | (s1, Ok _) =>
           let '(s2, r) := body s1 in
           match after s2 with
           | (s3, Raise e) => (s3, Raise e)
           | (s3, Ok _) => (s3, r)
           end
       end.

(** ** Python lists used as stacks: [l[-1]], [l[-1] = x], [l.pop(-1)] *)

Definition py_top {A} (l : list A) : result A :=
  match last l with Some x => Ok x | None => Raise IndexError end.

Definition py_set_top {A} (x : A) (l : list A) : result (list A) :=
  match last l with
  | Some _ => Ok (removelast l ++ [x])
  | None => Raise IndexError
  end.

Definition py_pop {A} (l : list A) : result (list A) :=
  match last l with
  | Some _ => Ok (removelast l)
  | None => Raise IndexError
  end.

(** ** [str.split] and [str.join] for a one-character separator *)

Fixpoint split (sep : ascii) (s : string) : list string :=
  match s with
  | EmptyString => [EmptyString]
  | String c s' =>
      if Ascii.eqb c sep then EmptyString :: split sep s'
      else match split sep s' with
           | x :: xs => String c x :: xs
           | [] => [String c EmptyString]
           end
  end.

Fixpoint join (sep : string) (l : list string) : string :=
  match l with
  | [] => EmptyString
  | [x] => x
  | x :: xs => x +:+ sep +:+ join sep xs
  end.

(** ** The environment stack: class [_Env] *)

Section Env.
(** [plumbum.path.Path] is imported, not defined, by this module: it is a
    parameter here, with its constructor on a string and its [str]. *)
Variable Path : Type.
Variable mkPath : string → Path.
Variable path_str : Path → string.
(** [os.path.pathsep] *)
Variable pathsep : ascii.

Record _Env : Type := mk_Env {
  _envstack : list (gmap string string);
  path : list Path
}.

Definition set_envstack (st : list (gmap string string)) (e : _Env) : _Env :=
  {| _envstack := st; path := path e |}.
Definition set_path (p : list Path) (e : _Env) : _Env :=
  {| _envstack := _envstack e; path := p |}.

Definition lift_result {A} (r : result A) : M _Env A := λ e, (e, r).

(** [self._envstack[-1]] *)
Definition env_top : M _Env (gmap string string) :=
  λ e, (e, py_top (_envstack e)).

(** [self._envstack[-1] = f'] after an in-place change of the top dict *)
Definition env_change_top (f : gmap string string → gmap string string) : M _Env unit :=
  λ e, match py_top (_envstack e) with
       | Ok fr =>
           match py_set_top (f fr) (_envstack e) with
           | Ok st => (set_envstack st e, Ok tt)
           | Raise x => (e, Raise x)
           end
       | Raise x => (e, Raise x)
       end.

Definition __getitem__ (name : string) : M _Env string :=
  let* fr := env_top in
  match fr !! name with
  | Some v => ret v
  | None => raise (KeyError name)
  end.

Definition __contains__ (name : string) : M _Env bool :=
  let* fr := env_top in ret (bool_decide (is_Some (fr !! name))).

Definition get (name : string) (default : option string) : M _Env (option string) :=
  let* fr := env_top in
  ret (match fr !! name with Some v => Some v | None => default end).

Definition _update_path : M _Env unit :=
  let* v := __getitem__ "PATH" in
  modify (set_path (map mkPath (split pathsep v))).

Definition __setitem__ (name value : string) : M _Env unit :=
  let* _ := env_change_top (insert name value) in
  if bool_decide (name = "PATH") then _update_path else ret tt.

Definition __delitem__ (name : string) : M _Env unit :=
  let* fr := env_top in
  match fr !! name with
  | Some _ => env_change_top (delete name)
  | None => raise (KeyError name)
  end.

(** [dict.update]: the entries of [kwargs] replace those of the frame. *)
Definition update (kwargs : gmap string string) : M _Env unit :=
  let* _ := env_change_top (λ fr, kwargs ∪ fr) in
  _update_path.

Definition getdict : M _Env (gmap string string) :=
  let* p := (λ e, (e, Ok (path e))) in
  let* _ := env_change_top (insert "PATH" (join (String pathsep EmptyString) (map path_str p))) in
  env_top.

(** The part of [__call__] ahead of [yield]. *)
Definition env_enter (kwargs : gmap string string) : M _Env unit :=
  let* fr := env_top in
  let* _ := modify (λ e, set_envstack (_envstack e ++ [fr]) e) in
  update kwargs.

(** The [finally] part of [__call__]. *)
Definition env_exit : M _Env unit :=
  let* _ := _update_path in
  (λ e, match py_pop (_envstack e) with
        | Ok st => (set_envstack st e, Ok tt)
        | Raise x => (e, Raise x)
        end).

(** [with env(FOO = v, ...): body], the keyword arguments as a dict *)
Definition with_env {A} (kwargs : gmap string string) (body : M _Env A) : M _Env A :=
  scoped (env_enter kwargs) env_exit body.

(** [env.path.append(p)]: the list is public and callers mutate it. *)
Definition path_append (p : Path) : M _Env unit :=
  modify (λ e, set_path (path e ++ [p]) e).

(** [_Env.__init__] for a given [os.environ] *)
Definition env_init (environ : gmap string string) : result _Env :=
  match _update_path {| _envstack := [environ]; path := [] |} with
  | (e, Ok _) => Ok e
  | (_, Raise x) => Raise x
  end.

End Env.

(** ** The operating system, as far as the module touches it *)

(** Directories and files are known by the string the program names them
    with; [os_nocreate] holds the names under which no file can be created
    (missing directory, no permission). *)
Record node : Type := mk_node {
  n_content : string;
  n_readable : bool;
  n_writable : bool
}.

Record OS : Type := mk_OS {
  os_cwd : string;
  os_dirs : gset string;
  os_files : gmap string node;
  os_nocreate : gset string
}.

Definition set_os_cwd (d : string) (o : OS) : OS :=
  {| os_cwd := d; os_dirs := os_dirs o; os_files := os_files o;
     os_nocreate := os_nocreate o |}.
Definition set_os_files (fs : gmap string node) (o : OS) : OS :=
  {| os_cwd := os_cwd o; os_dirs := os_dirs o; os_files := fs;
     os_nocreate := os_nocreate o |}.

(** [os.chdir(d)] raises [OSError] unless [d] names a directory. *)
Definition os_chdir (d : string) : M OS unit :=
  λ o, if bool_decide (d ∈ os_dirs o) then (set_os_cwd d o, Ok tt)
       else (o, Raise (OSError d)).

Inductive file_mode : Type := ModeR | ModeW.

Global Instance file_mode_eq_dec : EqDecision file_mode.
Proof. solve_decision. Defined.

(** An open Python file object. *)
Record file : Type := mk_file { f_name : string; f_mode : file_mode }.

Global Instance file_eq_dec : EqDecision file.
Proof. solve_decision. Defined.

(** The builtin [open(name, mode)] for the modes ["r"] and ["w"]. *)
Definition open (name : string) (mode : file_mode) : M OS file :=
  λ o, match mode with
       | ModeR =>
           match os_files o !! name with
           | Some n => if n_readable n then (o, Ok (mk_file name ModeR))
                       else (o, Raise (IOError name))
           | None => (o, Raise (IOError name))
           end
       | ModeW =>
           match os_files o !! name with
           | Some n =>
               if n_writable n
               then (set_os_files (<[name := mk_node EmptyString (n_readable n) true]> (os_files o)) o,
                     Ok (mk_file name ModeW))
               else (o, Raise (IOError name))
           | None =>
               if bool_decide (name ∈ os_nocreate o) then (o, Raise (IOError name))
               else (set_os_files (<[name := mk_node EmptyString true true]> (os_files o)) o,
                     Ok (mk_file name ModeW))
           end
       end.

(** ** The directory stack: class [_Workdir] *)

Section Workdir.
Variable Path : Type.
Variable mkPath : string → Path.
Variable path_str : Path → string.

(** What an entry of [_dirstack] can be: the [None] that [__call__]
    appends, the string [os.getcwd()] gives, a [Path]. *)
Inductive dirent : Type :=
| DNone
| DStr (s : string)
| DPath (p : Path).

(** [str(d)] *)
Definition dirent_str (d : dirent) : string :=
  match d with
  | DNone => "None"
  | DStr s => s
  | DPath p => path_str p
  end.

(** The object and the operating system it drives. *)
Record _Workdir : Type := mk_Workdir {
  _dirstack : list dirent;
  wd_os : OS
}.

Definition set_dirstack (st : list dirent) (w : _Workdir) : _Workdir :=
  {| _dirstack := st; wd_os := wd_os w |}.
Definition set_wd_os (o : OS) (w : _Workdir) : _Workdir :=
  {| _dirstack := _dirstack w; wd_os := o |}.

(** [_Workdir.__init__] *)
Definition workdir_init (o : OS) : _Workdir :=
  {| _dirstack := [DStr (os_cwd o)]; wd_os := o |}.

(** The property [_path]: [self._dirstack[-1]] *)
Definition _path : M _Workdir dirent :=
  λ w, (w, py_top (_dirstack w)).

(** [str(self)] *)
Definition workdir_str : M _Workdir string :=
  let* d := _path in ret (dirent_str d).

Definition chdir (dir : dirent) : M _Workdir unit :=
  let* _ := zoom wd_os set_wd_os (os_chdir (dirent_str dir)) in
  (λ w, match py_set_top (DPath (mkPath (dirent_str dir))) (_dirstack w) with
        | Ok st => (set_dirstack st w, Ok tt)
        | Raise x => (w, Raise x)
        end).

(** The part of [__call__] ahead of [try]. *)
Definition cwd_enter (dir : dirent) : M _Workdir unit :=
  let* _ := modify (λ w, set_dirstack (_dirstack w ++ [DNone]) w) in
  chdir dir.

(** The [finally] part of [__call__]. *)
Definition cwd_exit : M _Workdir unit :=
  let* _ := (λ w, match py_pop (_dirstack w) with
                  | Ok st => (set_dirstack st w, Ok tt)
                  | Raise x => (w, Raise x)
                  end) in
  let* d := _path in
  chdir d.

(** [with cwd(dir): body] *)
Definition with_cwd {A} (dir : dirent) (body : M _Workdir A) : M _Workdir A :=
  scoped (cwd_enter dir) cwd_exit body.

(** The invariant of the specification: the directory of the process is
    the one on top of the stack. *)
Definition cwd_in_sync (w : _Workdir) : Prop :=
  ∃ d, last (_dirstack w) = Some d ∧ d ≠ DNone ∧ dirent_str d = os_cwd (wd_os w).

Definition cwd_in_syncb (w : _Workdir) : bool :=
  match last (_dirstack w) with
  | Some DNone | None => false
  | Some d => bool_decide (dirent_str d = os_cwd (wd_os w))
  end.

End Workdir.

(** ** Process handles: [subprocess.Popen] objects *)

(** A [Popen] object is known by its index in the table of the objects
    created so far, so that two references to one object share its state. *)
Abbreviation handle := nat (only parsing).

(** What can be given for a standard stream. [PIPE] is [-1] in
    [subprocess]; [None] inherits the stream of the caller. *)
Inductive endpoint : Type :=
| EInt (n : Z)
| ENone
| EFile (f : file)
| EPipe (h : handle).   (* [proc.stdout] of the [Popen] object [h] *)

Definition PIPE : endpoint := EInt (-1)%Z.

Global Instance endpoint_eq_dec : EqDecision endpoint.
Proof. solve_decision. Defined.

(** [e != PIPE] *)
Definition ne_PIPE (e : endpoint) : bool :=
  match e with
  | EInt n => negb (n =? -1)%Z
  | _ => true
  end.

(** The attribute [proc.stdin], [proc.stdout] or [proc.stderr]: [None]
    unless the stream was given as [PIPE], else a pipe, open or closed. *)
Inductive pipe_attr : Type := NoPipe | PipeOpen | PipeClosed.

Definition pipe_attr_of (e : endpoint) : pipe_attr :=
  if ne_PIPE e then NoPipe else PipeOpen.

Definition close_pipe (a : pipe_attr) : pipe_attr :=
  match a with NoPipe => NoPipe | _ => PipeClosed end.

Definition is_closed (a : pipe_attr) : bool :=
  match a with PipeClosed => true | _ => false end.

(** What the operating system makes of a spawned process: its exit code,
    what it writes on its standard output and error, and what a call of
    [communicate] gives on an object whose pipes are already closed. *)
Record Fate : Type := mk_Fate {
  f_exit : Z;
  f_out : string;
  f_err : string;
  f_again : option (option string * option string)   (* [None]: [ValueError] *)
}.

(** The arguments of the [Popen] constructor. *)
Record PopenArgs : Type := mk_PopenArgs {
  a_cmdline : list string;
  a_executable : string;
  a_stdin : endpoint;
  a_stdout : endpoint;
  a_stderr : endpoint;
  a_cwd : string;
  a_env : gmap string string
}.

Record Popen_obj : Type := mk_Popen {
  p_args : PopenArgs;
  p_fate : Fate;
  stdin : pipe_attr;
  stdout : pipe_attr;
  stderr : pipe_attr;
  returncode : option Z;         (* [None] until the process is waited for *)
  cmdline : list string;         (* set by [Command.popen] *)
  srcproc : option handle;       (* set by [Pipeline.popen] *)
  communicated : nat             (* ghost: the calls of [communicate] so far *)
}.

Abbreviation table := (list Popen_obj) (only parsing).

Definition upd (h : handle) (f : Popen_obj → Popen_obj) (t : table) : table :=
  alter f h t.

Definition set_cmdline (c : list string) (p : Popen_obj) : Popen_obj :=
  {| p_args := p_args p; p_fate := p_fate p; stdin := stdin p; stdout := stdout p;
     stderr := stderr p; returncode := returncode p; cmdline := c;
     srcproc := srcproc p; communicated := communicated p |}.
Definition set_srcproc (s : handle) (p : Popen_obj) : Popen_obj :=
  {| p_args := p_args p; p_fate := p_fate p; stdin := stdin p; stdout := stdout p;
     stderr := stderr p; returncode := returncode p; cmdline := cmdline p;
     srcproc := Some s; communicated := communicated p |}.
Definition close_stdout (p : Popen_obj) : Popen_obj :=
  {| p_args := p_args p; p_fate := p_fate p; stdin := stdin p;
     stdout := close_pipe (stdout p);
     stderr := stderr p; returncode := returncode p; cmdline := cmdline p;
     srcproc := srcproc p; communicated := communicated p |}.
Definition close_stderr (p : Popen_obj) : Popen_obj :=
  {| p_args := p_args p; p_fate := p_fate p; stdin := stdin p; stdout := stdout p;
     stderr := close_pipe (stderr p);
     returncode := returncode p; cmdline := cmdline p;
     srcproc := srcproc p; communicated := communicated p |}.

(** The object after a call of [communicate] that returns: the process has
    been waited for and the pipes of the object are closed. *)
Definition collected (p : Popen_obj) : Popen_obj :=
  {| p_args := p_args p; p_fate := p_fate p;
     stdin := close_pipe (stdin p); stdout := close_pipe (stdout p);
     stderr := close_pipe (stderr p);
     returncode := Some (f_exit (p_fate p)); cmdline := cmdline p;
     srcproc := srcproc p; communicated := S (communicated p) |}.
Definition count_call (p : Popen_obj) : Popen_obj :=
  {| p_args := p_args p; p_fate := p_fate p; stdin := stdin p; stdout := stdout p;
     stderr := stderr p; returncode := returncode p; cmdline := cmdline p;
     srcproc := srcproc p; communicated := S (communicated p) |}.

(** An earlier [communicate], or a [close] by the parent, has closed a pipe
    that [communicate] would read. *)
Definition stale (p : Popen_obj) : bool :=
  is_closed (stdout p) || is_closed (stderr p).

Definition capture (a : pipe_attr) (data : string) : option string :=
  match a with PipeOpen => Some data | _ => None end.

(** [proc.communicate()]: waits for the process and reads its piped output
    to the end; a stream that is not a pipe gives [None]. *)
Definition communicate (h : handle) : M table (option string * option string) :=
  λ t, match t !! h with
       | None => (t, Raise ValueError)
       | Some p =>
           if stale p then
             match f_again (p_fate p) with
             | Some r => (upd h collected t, Ok r)
             | None => (upd h count_call t, Raise ValueError)
             end
           else
             (upd h collected t,
              Ok (capture (stdout p) (f_out (p_fate p)),
                  capture (stderr p) (f_err (p_fate p))))
       end.

(** ** The execution engine: [_run] *)

(** The values given as [retcode]: [None], an integer, a set of integers. *)
Inductive pyval : Type :=
| VNone
| VInt (n : Z)
| VSet (s : gset Z).

Definition is_None (v : pyval) : bool :=
  match v with VNone => true | _ => false end.

(** [proc.returncode != retcode]: values of different types are unequal. *)
Definition returncode_ne (rc : option Z) (v : pyval) : bool :=
  match rc, v with
  | None, VNone => false
  | Some a, VInt b => negb (a =? b)%Z
  | _, _ => true
  end.

(** [if not s: s = ""] *)
Definition or_empty (s : option string) : string :=
  match s with
  | Some (String c s') => String c s'
  | _ => EmptyString
  end.

Definition _run (proc : handle) (retcode : pyval) : M table (option Z * string * string) :=
  let* oe := communicate proc in
  let out := or_empty oe.1 in
  let err := or_empty oe.2 in
  let* p := (λ t, (t, match t !! proc with Some p => Ok p | None => Raise ValueError end)) in
  if negb (is_None retcode) && returncode_ne (returncode p) retcode
  then raise (ProcessExecutionError (cmdline p) (returncode p) out err)
  else ret (returncode p, out, err).

(** ** Composable units: [Command], [BoundCommand], [Pipeline], [Redirection] *)

(** [BoundCommand] is only built by [Command.__getitem__], so its [cmd] is
    a [Command], given here by its executable.  A [Redirection] holds the
    three endpoints its constructor computed. *)
Inductive chainable : Type :=
| Command (executable : string)
| BoundCommand (cmd : string) (args : list string)
| Pipeline (srccmd dstcmd : chainable)
| Redirection (cmd : chainable) (stdin_file stdout_file stderr_file : endpoint).

(** An argument of [Redirection.__init__]: a [str], or anything else. *)
Inductive redir_arg : Type :=
| AStr (name : string)
| AEnd (e : endpoint).

(** [open(x, mode) if isinstance(x, str) else x] *)
Definition open_if_str (x : redir_arg) (mode : file_mode) : M OS endpoint :=
  match x with
  | AStr name => let* f := open name mode in ret (EFile f)
  | AEnd e => ret e
  end.

(** [Redirection.__init__]; the three attributes are computed in order. *)
Definition Redirection_init (cmd : chainable) (stdin_file stdout_file stderr_file : redir_arg)
  : M OS chainable :=
  let* i := open_if_str stdin_file ModeR in
  let* o := open_if_str stdout_file ModeW in
  let* e := open_if_str stderr_file ModeW in
  ret (Redirection cmd i o e).

(** The operators of [ChainableCommand] that take no data. *)
Definition __or__ (self other : chainable) : chainable := Pipeline self other.
Definition __gt__ (self : chainable) (stdout_file : redir_arg) : M OS chainable :=
  Redirection_init self (AEnd PIPE) stdout_file (AEnd PIPE).
Definition __ge__ (self : chainable) (stderr_file : redir_arg) : M OS chainable :=
  Redirection_init self (AEnd PIPE) (AEnd PIPE) stderr_file.
Definition __lt__ (self : chainable) (stdin_file : redir_arg) : M OS chainable :=
  Redirection_init self stdin_file (AEnd PIPE) (AEnd PIPE).

(** The keyword arguments [popen] looks at; [None] is an absent keyword. *)
Record kwargs : Type := mk_kwargs {
  kw_cwd : option string;
  kw_env : option (gmap string string)
}.

Definition no_kwargs : kwargs := {| kw_cwd := None; kw_env := None |}.

Section Commands.
Variable Path : Type.
Variable path_str : Path → string.
Variable pathsep : ascii.
(** What the operating system does with a spawn request, given the
    processes that exist: [None] when it cannot execute the program (an
    [OSError]), or the fate of the new process. *)
Variable os_spawn : table → PopenArgs → option Fate.

(** The module-level objects [env] and [cwd], and the [Popen] objects. *)
Record World : Type := mk_World {
  w_env : _Env Path;
  w_cwd : _Workdir Path;
  w_procs : table
}.

Definition set_w_env (e : _Env Path) (w : World) : World :=
  {| w_env := e; w_cwd := w_cwd w; w_procs := w_procs w |}.
Definition set_w_cwd (c : _Workdir Path) (w : World) : World :=
  {| w_env := w_env w; w_cwd := c; w_procs := w_procs w |}.
Definition set_w_procs (t : table) (w : World) : World :=
  {| w_env := w_env w; w_cwd := w_cwd w; w_procs := t |}.

Definition in_env {A} (m : M (_Env Path) A) : M World A := zoom w_env set_w_env m.
Definition in_cwd {A} (m : M (_Workdir Path) A) : M World A := zoom w_cwd set_w_cwd m.
Definition in_procs {A} (m : M table A) : M World A := zoom w_procs set_w_procs m.

(** [subprocess.Popen(...)]: the new object is appended to the table. *)
Definition Popen (a : PopenArgs) : M table handle :=
  λ t, match os_spawn t a with
       | None => (t, Raise (OSError (a_executable a)))
       | Some f =>
           (t ++ [ {| p_args := a; p_fate := f;
                      stdin := pipe_attr_of (a_stdin a);
                      stdout := pipe_attr_of (a_stdout a);
                      stderr := pipe_attr_of (a_stderr a);
                      returncode := None; cmdline := []; srcproc := None;
                      communicated := 0 |} ],
            Ok (length t))
       end.

(** [Command.popen] *)
Definition Command_popen (executable : string) (args : list string)
    (stdin stdout stderr : endpoint) (kw : kwargs) : M World handle :=
  let* cwd := match kw_cwd kw with
              | Some c => ret c
              | None => in_cwd (workdir_str Path path_str)
              end in
  let* env := match kw_env kw with
              | Some d => ret d
              | None => in_env (getdict Path path_str pathsep)
              end in
  let cmdline := executable :: args in
  let* proc := in_procs (Popen {| a_cmdline := cmdline; a_executable := executable;
                                  a_stdin := stdin; a_stdout := stdout; a_stderr := stderr;
                                  a_cwd := cwd; a_env := env |}) in
  let* _ := in_procs (modify (upd proc (set_cmdline cmdline))) in
  ret proc.

(** [proc.stdout] as the argument of a later [Popen] *)
Definition stdout_of (proc : handle) : M table endpoint :=
  λ t, match t !! proc with
       | Some p => (t, Ok (match stdout p with NoPipe => ENone | _ => EPipe proc end))
       | None => (t, Raise ValueError)
       end.

(** [proc.stdout.close()] and [proc.stderr.close()]: the attribute is
    [None] when the stream is no pipe. *)
Definition stdout_close (proc : handle) : M table unit :=
  λ t, match t !! proc with
       | Some p => match stdout p with
                   | NoPipe => (t, Raise AttributeError)
                   | _ => (upd proc close_stdout t, Ok tt)
                   end
       | None => (t, Raise ValueError)
       end.
Definition stderr_close (proc : handle) : M table unit :=
  λ t, match t !! proc with
       | Some p => match stderr p with
                   | NoPipe => (t, Raise AttributeError)
                   | _ => (upd proc close_stderr t, Ok tt)
                   end
       | None => (t, Raise ValueError)
       end.

(** The method [popen] of the four classes. *)
Fixpoint popen (u : chainable) (stdin stdout stderr : endpoint) (kw : kwargs)
    {struct u} : M World handle :=
  match u with
  | Command executable =>
      Command_popen executable [] stdin stdout stderr kw
  | BoundCommand cmd args =>
      Command_popen cmd args stdin stdout stderr kw
  | Pipeline srccmd dstcmd =>
      let* srcproc := popen srccmd stdin PIPE PIPE kw in
      let* src_out := in_procs (stdout_of srcproc) in
      let* dstproc := popen dstcmd src_out stdout stderr kw in
      let* _ := in_procs (stdout_close srcproc) in
      let* _ := in_procs (stderr_close srcproc) in
      let* _ := in_procs (modify (upd dstproc (set_srcproc srcproc))) in
      ret dstproc
  | Redirection cmd stdin_file stdout_file stderr_file =>
      popen cmd
        (if ne_PIPE stdin_file then stdin_file else stdin)
        (if ne_PIPE stdout_file then stdout_file else stdout)
        (if ne_PIPE stderr_file then stderr_file else stderr)
        kw
  end.

(** The method [run] of the four classes: each spawns with its [popen]
    and hands the handle to [_run]. *)
Definition run (u : chainable) (retcode : pyval) (stdin stdout stderr : endpoint)
    (kw : kwargs) : M World (option Z * string * string) :=
  let* proc := popen u stdin stdout stderr kw in
  in_procs (_run proc retcode).

(** [ChainableCommand.__call__] without arguments: [self.run(...)[1]] *)
Definition __call__ (u : chainable) (retcode : pyval) (stdin stdout stderr : endpoint)
    (kw : kwargs) : M World string :=
  let* r := run u retcode stdin stdout stderr kw in
  ret r.1.2.

End Commands.

(** ** Futures *)

Record Future : Type := mk_Future {
  proc : handle;
  _expected_retcode : pyval;
  _returncode : option Z;
  _stdout : option string;
  _stderr : option string
}.

(** [Future.__init__] *)
Definition Future_init (proc : handle) (retcode : pyval) : Future :=
  {| proc := proc; _expected_retcode := retcode;
     _returncode := None; _stdout := None; _stderr := None |}.

(** A future and the table in which its handle lives. *)
Record FutureState : Type := mk_FutureState {
  fut : Future;
  fut_procs : table
}.

Definition set_fut (f : Future) (s : FutureState) : FutureState :=
  {| fut := f; fut_procs := fut_procs s |}.
Definition set_fut_procs (t : table) (s : FutureState) : FutureState :=
  {| fut := fut s; fut_procs := t |}.

Definition ready : M FutureState bool :=
  λ s, (s, Ok (bool_decide (_returncode (fut s) ≠ None))).

(** The right-hand side [_run(...)] is evaluated before any of the three
    fields is assigned. *)
Definition wait : M FutureState unit :=
  let* r := ready in
  if r then ret tt
  else
    let* f := (λ s, (s, Ok (fut s))) in
    let* res := zoom fut_procs set_fut_procs (_run (proc f) (_expected_retcode f)) in
    modify (λ s, set_fut {| proc := proc (fut s);
                            _expected_retcode := _expected_retcode (fut s);
                            _returncode := res.1.1;
                            _stdout := Some res.1.2;
                            _stderr := Some res.2 |} s).

(** The properties [stdout], [stderr] and [returncode]. *)
Definition Future_stdout : M FutureState (option string) :=
  let* _ := wait in (λ s, (s, Ok (_stdout (fut s)))).
Definition Future_stderr : M FutureState (option string) :=
  let* _ := wait in (λ s, (s, Ok (_stderr (fut s)))).
Definition Future_returncode : M FutureState (option Z) :=
  let* _ := wait in (λ s, (s, Ok (_returncode (fut s)))).

Section Executers.
Variable Path : Type.
Variable path_str : Path → string.
Variable pathsep : ascii.
Variable os_spawn : table → PopenArgs → option Fate.

(** [cmd & BG(retcode)] *)
Definition BG (retcode : pyval) (cmd : chainable) : M (World Path) Future :=
  let* p := popen Path path_str pathsep os_spawn cmd PIPE PIPE PIPE no_kwargs in
  ret (Future_init p retcode).

(** [cmd & FG(retcode)] *)
Definition FG (retcode : pyval) (cmd : chainable) : M (World Path) string :=
  __call__ Path path_str pathsep os_spawn cmd retcode ENone ENone ENone no_kwargs.
End Executers.

(** ** A concrete instance

    [Path] is taken to keep the string it is made from, the separator is
    the colon of POSIX, and every spawn request succeeds with a process that
    writes its command name on its standard output and exits with the code
    [exit_of] reads off the command line. *)

Module Sample.

Definition Path : Type := string.
Definition mkPath (s : string) : Path := s.
Definition path_str (p : Path) : string := p.
Definition pathsep : ascii := ":"%char.

Definition sample_os : OS :=
  {| os_cwd := "/home";
     os_dirs := {[ "/home"; "/tmp" ]};
     os_files := {[ "in.txt" := mk_node "data" true true;
                    "secret.txt" := mk_node "key" false false ]};
     os_nocreate := {[ "/nodir/out.txt" ]} |}.

Definition sample_env : _Env Path :=
  {| _envstack := [ {[ "PATH" := "/bin:/usr/bin"; "HOME" := "/home" ]} ];
     path := ["/bin"; "/usr/bin"] |}.

Definition sample_world : World Path :=
  {| w_env := sample_env; w_cwd := workdir_init Path sample_os; w_procs := [] |}.

(** [/bin/false] exits with 1, everything else with 0. *)
Definition exit_of (cmdline : list string) : Z :=
  match cmdline with
  | exe :: _ => if bool_decide (exe = "/bin/false") then 1%Z else 0%Z
  | [] => 0%Z
  end.

Definition sample_spawn (t : table) (a : PopenArgs) : option Fate :=
  Some {| f_exit := exit_of (a_cmdline a);
          f_out := a_executable a;
          f_err := EmptyString;
          f_again := None |}.

Definition ls : chainable := Command "/bin/ls".
Definition grep_a : chainable := BoundCommand "/bin/grep" ["a"].
Definition false_ : chainable := Command "/bin/false".

(** The world after [env.path.append("/lalalala")], the first thing the
    demonstration at the end of the module does inside a scope. *)
Definition appended_world : World Path :=
  {| w_env := (path_append Path "/lalalala" sample_env).1;
     w_cwd := workdir_init Path sample_os;
     w_procs := [] |}.

Definition sample_popen := popen Path path_str pathsep sample_spawn.
Definition sample_run := run Path path_str pathsep sample_spawn.

End Sample.

(** ** Notions used in the statements *)

(** A [Popen] object as [Command.popen] hands it out: its pipes are the
    ones asked for, nobody has waited for the process, and [cmdline] is the
    command line the process was started with. *)
Definition fresh (p : Popen_obj) : Prop :=
  stdin p = pipe_attr_of (a_stdin (p_args p))
  ∧ stdout p = pipe_attr_of (a_stdout (p_args p))
  ∧ stderr p = pipe_attr_of (a_stderr (p_args p))
  ∧ returncode p = None
  ∧ communicated p = 0
  ∧ cmdline p = a_cmdline (p_args p).

(** The process has exited and has been waited for, and no pipe of the
    object is left to read. *)
Definition drained (p : Popen_obj) : Prop :=
  returncode p = Some (f_exit (p_fate p))
  ∧ stdout p ≠ PipeOpen
  ∧ stderr p ≠ PipeOpen.

(** What a call of [popen] from the world [w] leaves: the directory stack
    as it was, the table extended, and on success a fresh object at the end
    of the table under the handle that is returned. *)
Definition popen_post {Path : Type} (w w' : World Path) (r : result handle) : Prop :=
  w_cwd _ w' = w_cwd _ w
  ∧ match r with
    | Ok h => ∃ l p, w_procs _ w' = (w_procs _ w ++ l) ++ [p]
                     ∧ h = length (w_procs _ w ++ l) ∧ fresh p
    | Raise _ => ∃ l, w_procs _ w' = w_procs _ w ++ l
    end.

(** The handle [h] of a pipeline carries a reference to the handle of its
    source, and the source process has been waited for: its exit code can
    be read off the recorded handle. *)
Definition source_collected (t : table) (h : handle) : Prop :=
  ∃ pd hs ps, t !! h = Some pd ∧ srcproc pd = Some hs
              ∧ t !! hs = Some ps ∧ returncode ps = Some (f_exit (p_fate ps)).

(** The states a future goes through when [wait] is called again and
    again. *)
Definition rewait (n : nat) (s : FutureState) : FutureState :=
  Nat.iter n (λ s, (wait s).1) s.

(** The endpoint a nest of redirection wrappers settles on for one stream,
    in the words of the specification: the endpoints the wrappers hold are
    given from the innermost outward; the first that is not pass-through
    wins, and when all are pass-through the caller's choice applies. *)
Fixpoint resolve (ws : list endpoint) (dflt : endpoint) : endpoint :=
  match ws with
  | [] => dflt
  | x :: ws' => if decide (x = PIPE) then resolve ws' dflt else x
  end.

(** [leaf] wrapped in the redirections [ws], the innermost first. *)
Definition wrap (leaf : chainable) (ws : list (endpoint * endpoint * endpoint)) : chainable :=
  fold_left (λ u x, Redirection u x.1.1 x.1.2 x.2) ws leaf.

(** The units that spawn one process: [Command] and [BoundCommand]. *)
Definition is_leaf (u : chainable) : Prop :=
  match u with
  | Command _ | BoundCommand _ _ => True
  | _ => False
  end.

(** The file [name] does not exist or cannot be read. *)
Definition missing_or_unreadable (o : OS) (name : string) : Prop :=
  match os_files o !! name with
  | Some n => n_readable n = false
  | None => True
  end.

(** The file [name] exists and can be written, or can be created. *)
Definition can_write (o : OS) (name : string) : Prop :=
  match os_files o !! name with
  | Some n => n_writable n = true
  | None => name ∉ os_nocreate o
  end.

(** [o'] is [o] with the file [name] created or cut to the empty file, and
    nothing else changed. *)
Definition truncated (name : string) (o o' : OS) : Prop :=
  (∃ n, os_files o' !! name = Some n ∧ n_content n = EmptyString)
  ∧ (∀ k, k ≠ name → os_files o' !! k = os_files o !! k)
  ∧ os_cwd o' = os_cwd o ∧ os_dirs o' = os_dirs o.

(** ** The rest of the module *)

(** *** [_Env.home] and [_Env.user] *)

Section EnvAccessors.
Variable Path : Type.
Variable mkPath : string → Path.
(** [Path(a, b)], the constructor on two parts *)
Variable mkPath2 : string → string → Path.
Variable pathsep : ascii.

(** The getter of the property [home] *)
Definition home : M (_Env Path) (option Path) :=
  let* h := __contains__ Path "HOME" in
  if h then
    let* v := __getitem__ Path "HOME" in ret (Some (mkPath v))
  else
    let* u := __contains__ Path "USERPROFILE" in
    if u then
      let* v := __getitem__ Path "USERPROFILE" in ret (Some (mkPath v))
    else
      let* hp := __contains__ Path "HOMEPATH" in
      if hp then
        let* d := get Path "HOMEDRIVE" (Some EmptyString) in
        let* v := __getitem__ Path "HOMEPATH" in
        ret (Some (mkPath2 (default EmptyString d) v))
      else ret None.

(** The setter of the property [home], given [str(p)] *)
Definition set_home (p : string) : M (_Env Path) unit :=
  let* h := __contains__ Path "HOME" in
  if h then __setitem__ Path mkPath pathsep "HOME" p
  else
    let* u := __contains__ Path "USERPROFILE" in
    if u then __setitem__ Path mkPath pathsep "USERPROFILE" p
    else
      let* hp := __contains__ Path "HOMEPATH" in
      if hp then __setitem__ Path mkPath pathsep "HOMEPATH" p
      else __setitem__ Path mkPath pathsep "HOME" p.

(** The property [user] *)
Definition user : M (_Env Path) (option string) :=
  let* u := __contains__ Path "USER" in
  if u then
    let* v := __getitem__ Path "USER" in ret (Some v)
  else
    let* n := __contains__ Path "USERNAME" in
    if n then
      let* v := __getitem__ Path "USERNAME" in ret (Some v)
    else ret None.

(** A computation on the environment that keeps the depth of the stack and
    the frames below the top, and leaves a [PATH] on top when it finds
    one. *)
Definition keeps_PATH {A} (m : M (_Env Path) A) : Prop :=
  ∀ st fr p v e' r,
    fr !! "PATH" = Some v →
    m (mk_Env Path (st ++ [fr]) p) = (e', r) →
    ∃ fr' v' p', e' = mk_Env Path (st ++ [fr']) p' ∧ fr' !! "PATH" = Some v'.

End EnvAccessors.

(** *** [_make_input] *)

(** [s[:n]] and [s[n:]] for a string *)
Fixpoint str_take (n : nat) (s : string) : string :=
  match n, s with
  | S n', String c s' => String c (str_take n' s')
  | _, _ => EmptyString
  end.

Fixpoint str_drop (n : nat) (s : string) : string :=
  match n, s with
  | S n', String _ s' => str_drop n' s'
  | _, _ => s
  end.

(** The file [TemporaryFile()] gives: what has been written and the
    position of the next read or write. *)
Record tempfile : Type := mk_tempfile {
  t_content : string;
  t_pos : nat
}.

Definition TemporaryFile : tempfile := {| t_content := EmptyString; t_pos := 0 |}.

(** [f.write(chunk)] at the end of the file *)
Definition t_write (chunk : string) (f : tempfile) : tempfile :=
  {| t_content := t_content f +:+ chunk;
     t_pos := t_pos f + String.length chunk |}.

(** [f.seek(0)] *)
Definition t_rewind (f : tempfile) : tempfile :=
  {| t_content := t_content f; t_pos := 0 |}.

(** The loop of [_make_input], and how many times [write] was called; the
    loop runs as long as [data] is not empty, and [None] is a run that is
    not over when the fuel is. *)
Fixpoint _make_input_loop (fuel : nat) (CHUNK_SIZE : nat) (data : string)
    (f : tempfile) (writes : nat) : option (tempfile * nat) :=
  match fuel with
  | O => None
  | S fuel' =>
      match data with
      | EmptyString => Some (f, writes)
      | _ =>
          let chunk := str_take CHUNK_SIZE data in
          _make_input_loop fuel' CHUNK_SIZE (str_drop CHUNK_SIZE data)
            (t_write chunk f) (S writes)
      end
  end.

Definition _make_input (fuel : nat) (data : string) (CHUNK_SIZE : nat)
  : option (tempfile * nat) :=
  match _make_input_loop fuel CHUNK_SIZE data TemporaryFile 0 with
  | Some (f, writes) => Some (t_rewind f, writes)
  | None => None
  end.

(** *** [LocalCommandNamespace]: looking a program up on the search path *)

(** [s.replace("_", "-")] *)
Fixpoint replace_underscores (s : string) : string :=
  match s with
  | EmptyString => EmptyString
  | String c s' =>
      String (if Ascii.eqb c "_"%char then "-"%char else c) (replace_underscores s')
  end.

(** [c in s] for a character *)
Fixpoint has_char (c : ascii) (s : string) : bool :=
  match s with
  | EmptyString => false
  | String c' s' => Ascii.eqb c' c || has_char c s'
  end.

Section Which.
Variable Path : Type.
Variable mkPath : string → Path.
Variable path_str : Path → string.
(** [n.basename] and [p.list()] of [plumbum.path.Path]; [None] is the
    [OSError] of a directory that cannot be listed. *)
Variable basename : Path → string.
Variable plist : Path → option (list Path).
(** The truth value of a [Path] object *)
Variable path_truthy : Path → bool.
Variable WIN32 : bool.
(** [str.lower] *)
Variable lower : string → string.

Definition _EXTENSIONS : list string :=
  [EmptyString] ++ (if WIN32 then [".exe"; ".bat"] else []).

(** [{n.basename : n for n in l}]: of two files with one base name the
    later one stays. *)
Definition filelist (l : list Path) : gmap string Path :=
  foldl (λ m n, <[basename n := n]> m) ∅ l.

(** The loop over the extensions *)
Fixpoint find_ext (fl : gmap string Path) (progname : string) (exts : list string)
  : option Path :=
  match exts with
  | [] => None
  | ext :: exts' =>
      match fl !! (progname +:+ ext) with
      | Some n => Some n
      | None => find_ext fl progname exts'
      end
  end.

(** The loop of [_which] over [env.path] *)
Fixpoint _which_in (dirs : list Path) (progname : string) : option Path :=
  match dirs with
  | [] => None
  | p :: dirs' =>
      match plist p with
      | None => _which_in dirs' progname
      | Some l =>
          match find_ext (filelist l) progname _EXTENSIONS with
          | Some n => Some n
          | None => _which_in dirs' progname
          end
      end
  end.

Definition _which (env : _Env Path) (progname : string) : option Path :=
  _which_in (path Path env) progname.

(** What [which] gives: the path it returns, or the [CommandNotFound] it
    raises, with its two attributes. *)
Inductive which_result : Type :=
| Found (p : Path)
| CommandNotFound (progname : string) (path : list Path).

(** The loop of [which] over the names to try: the first path [_which]
    finds that is true is returned. *)
Fixpoint which_loop (env : _Env Path) (names : list string) : option Path :=
  match names with
  | [] => None
  | pn :: names' =>
      match _which env pn with
      | Some p => if path_truthy p then Some p else which_loop env names'
      | None => which_loop env names'
      end
  end.

Definition which (env : _Env Path) (progname : string) : which_result :=
  let progname := if WIN32 then lower progname else progname in
  match which_loop env [progname; replace_underscores progname] with
  | Some p => Found p
  | None => CommandNotFound progname (path Path env)
  end.

(** The directory [p] holds the program [name]: it can be listed, and the
    listing has a file whose base name is [name] with one of the
    extensions. *)
Definition holds (p : Path) (name : string) : Prop :=
  ∃ l n ext, plist p = Some l ∧ n ∈ l ∧ ext ∈ _EXTENSIONS
             ∧ basename n = name +:+ ext.

(** [local[name]]: a name with a slash or a backslash is taken as a path,
    any other name is looked up. *)
Definition local_getitem (env : _Env Path) (name : string) : chainable + which_result :=
  if has_char "/"%char name || has_char "\"%char name
  then inl (Command (path_str (mkPath name)))
  else match which env name with
       | Found p => inl (Command (path_str p))
       | r => inr r
       end.

End Which.

(** A system whose processes write on both streams: every process writes
    [listing] on its standard output and [warning] on its standard error,
    and exits with the code [Sample.exit_of] reads off the command line. *)
Module Noisy.

Definition spawn (t : table) (a : PopenArgs) : option Fate :=
  Some {| f_exit := Sample.exit_of (a_cmdline a);
          f_out := "listing";
          f_err := "warning";
          f_again := None |}.

Definition run := run Sample.Path Sample.path_str Sample.pathsep spawn.
Definition popen := popen Sample.Path Sample.path_str Sample.pathsep spawn.

(** The object [Command.popen] makes in the sample world for a command
    without arguments, with the given output and error streams. *)
Definition handle_of (exe : string) (o e : endpoint) : Popen_obj :=
  mk_Popen
    (mk_PopenArgs [exe] exe PIPE o e "/home"
       {[ "PATH" := "/bin:/usr/bin"; "HOME" := "/home" ]})
    (mk_Fate (Sample.exit_of [exe]) "listing" "warning" None)
    PipeOpen (pipe_attr_of o) (pipe_attr_of e) None [exe] None 0.

End Noisy.

(** A concrete search path: two directories that can be listed and one
    that cannot. *)
Module SampleFS.

Definition basename (p : string) : string :=
  default EmptyString (last (split "/"%char p)).

Definition plist (p : string) : option (list string) :=
  if bool_decide (p = "/bin") then Some ["/bin/ls"; "/bin/cat"]
  else if bool_decide (p = "/usr/bin") then Some ["/usr/bin/ls"; "/usr/bin/apt-get"]
  else None.

Definition truthy (p : string) : bool := true.

Definition lower (s : string) : string := s.

Definition env : _Env string :=
  {| _envstack := [ {[ "PATH" := "/nodir:/bin:/usr/bin" ]} ];
     path := ["/nodir"; "/bin"; "/usr/bin"] |}.

End SampleFS.

(** *** [Command.__getitem__] *)

(** [cmd[args]]: one argument or a tuple of them, each as [str] gives it. *)
Definition Command_getitem (executable : string) (args : list string) : chainable :=
  BoundCommand executable args.

(** The leaves of a unit: the commands that [popen] spawns. *)
Fixpoint leaves (u : chainable) : nat :=
  match u with
  | Command _ | BoundCommand _ _ => 1
  | Pipeline s d => leaves s + leaves d
  | Redirection c _ _ _ => leaves c
  end.

(** * Properties *)

(** ** The monad and the stack operations *)

Lemma py_top_snoc {A} (l : list A) (x : A) : py_top (l ++ [x]) = Ok x.
Proof. unfold py_top. by rewrite last_snoc. Qed.

Lemma py_set_top_snoc {A} (l : list A) (x y : A) :
  py_set_top y (l ++ [x]) = Ok (l ++ [y]).
Proof. unfold py_set_top. by rewrite last_snoc, removelast_last. Qed.

Lemma py_pop_snoc {A} (l : list A) (x : A) : py_pop (l ++ [x]) = Ok l.
Proof. unfold py_pop. by rewrite last_snoc, removelast_last. Qed.

Lemma py_top_nil {A} : py_top (@nil A) = Raise IndexError.
Proof. done. Qed.

Lemma py_top_Ok {A} (l : list A) (x : A) :
  py_top l = Ok x → ∃ l', l = l' ++ [x].
Proof.
  unfold py_top. destruct (last l) as [y|] eqn:E; [|done].
  intros [= ->]. by apply last_Some in E.
Qed.

(** ** [str.split] and [str.join] *)

Lemma split_nonempty sep s : split sep s ≠ [].
Proof.
  destruct s as [|c s]; simpl; [done|].
  destruct (Ascii.eqb c sep); [done|]. by destruct (split sep s).
Qed.

Lemma join_split sep s : join (String sep EmptyString) (split sep s) = s.
Proof.
  induction s as [|c s IH]; simpl; [done|].
  destruct (Ascii.eqb c sep) eqn:E.
  - apply Ascii.eqb_eq in E as ->.
    destruct (split sep s) as [|x xs] eqn:Es; [by apply split_nonempty in Es|].
    simpl in *. by rewrite IH.
  - destruct (split sep s) as [|x xs] eqn:Es; [by apply split_nonempty in Es|].
    simpl in *. destruct xs; simpl in *; by rewrite <- IH.
Qed.

(** ** The environment stack *)

Section EnvFacts.
Variable Path : Type.
Variable mkPath : string → Path.
Variable path_str : Path → string.
Variable pathsep : ascii.

Local Abbreviation Env := (_Env Path).
Local Notation "'_update_path''" := (_update_path Path mkPath pathsep).
Local Notation "'getdict''" := (getdict Path path_str pathsep).
Local Notation "'update''" := (update Path mkPath pathsep).
Local Notation "'env_enter''" := (env_enter Path mkPath pathsep).
Local Notation "'env_exit''" := (env_exit Path mkPath pathsep).
Local Notation "'with_env''" := (with_env Path mkPath pathsep).
Local Abbreviation derived v := (map mkPath (split pathsep v)).
Local Abbreviation joined p := (join (String pathsep EmptyString) (map path_str p)).

Lemma env_top_snoc st fr p :
  env_top Path (mk_Env Path (st ++ [fr]) p) = (mk_Env Path (st ++ [fr]) p, Ok fr).
Proof. unfold env_top. simpl. by rewrite py_top_snoc. Qed.

Lemma env_change_top_snoc f st fr p :
  env_change_top Path f (mk_Env Path (st ++ [fr]) p)
  = (mk_Env Path (st ++ [f fr]) p, Ok tt).
Proof.
  unfold env_change_top. simpl. by rewrite py_top_snoc, py_set_top_snoc.
Qed.

Lemma _update_path_snoc st fr p v :
  fr !! "PATH" = Some v →
  _update_path' (mk_Env Path (st ++ [fr]) p)
  = (mk_Env Path (st ++ [fr]) (derived v), Ok tt).
Proof.
  intros Hv. unfold _update_path, __getitem__, bind.
  rewrite env_top_snoc. by rewrite Hv.
Qed.

Lemma _update_path_missing st fr p :
  fr !! "PATH" = None →
  _update_path' (mk_Env Path (st ++ [fr]) p)
  = (mk_Env Path (st ++ [fr]) p, Raise (KeyError "PATH")).
Proof.
  intros Hv. unfold _update_path, __getitem__, bind.
  rewrite env_top_snoc. by rewrite Hv.
Qed.

Lemma getdict_snoc st fr p :
  getdict' (mk_Env Path (st ++ [fr]) p)
  = (mk_Env Path (st ++ [<["PATH" := joined p]> fr]) p,
     Ok (<["PATH" := joined p]> fr)).
Proof.
  unfold getdict, bind. simpl.
  by rewrite env_change_top_snoc, env_top_snoc.
Qed.

Lemma env_enter_snoc kwargs st fr p v :
  (kwargs ∪ fr) !! "PATH" = Some v →
  env_enter' kwargs (mk_Env Path (st ++ [fr]) p)
  = (mk_Env Path ((st ++ [fr]) ++ [kwargs ∪ fr]) (derived v), Ok tt).
Proof.
  intros Hv. unfold env_enter, update, bind, modify.
  rewrite env_top_snoc. simpl. unfold set_envstack. simpl.
  rewrite env_change_top_snoc. by rewrite _update_path_snoc with (v := v).
Qed.

Lemma env_exit_snoc st fr p v :
  fr !! "PATH" = Some v →
  env_exit' (mk_Env Path (st ++ [fr]) p) = (mk_Env Path st (derived v), Ok tt).
Proof.
  intros Hv. unfold env_exit, bind.
  rewrite _update_path_snoc with (v := v) by done.
  simpl. by rewrite py_pop_snoc.
Qed.

(** When the frame on top has lost its [PATH], the [finally] part raises
    ahead of the [pop]: the frame stays. *)
Lemma env_exit_missing st fr p :
  fr !! "PATH" = None →
  env_exit' (mk_Env Path (st ++ [fr]) p)
  = (mk_Env Path (st ++ [fr]) p, Raise (KeyError "PATH")).
Proof.
  intros Hv. unfold env_exit, bind.
  by rewrite _update_path_missing.
Qed.

(** A scope around a body that leaves the frames below the top alone and
    keeps a [PATH] on top gives back the frames it started from, whether
    the body returns or raises; the derived list is the one of the frame
    that was dropped. *)
Lemma with_env_frames {A} kwargs (body : M Env A) st fr p v fr' p' v' r :
  (kwargs ∪ fr) !! "PATH" = Some v →
  body (mk_Env Path ((st ++ [fr]) ++ [kwargs ∪ fr]) (derived v))
    = (mk_Env Path ((st ++ [fr]) ++ [fr']) p', r) →
  fr' !! "PATH" = Some v' →
  with_env' kwargs body (mk_Env Path (st ++ [fr]) p)
  = (mk_Env Path (st ++ [fr]) (derived v'), r).
Proof.
  intros Hv Hbody Hv'. unfold with_env, scoped.
  rewrite env_enter_snoc with (v := v) by done.
  rewrite Hbody. by rewrite env_exit_snoc with (v := v').
Qed.

(** The scope [with env(PATH = v1): pass]: the frames are the ones from
    before the scope, the derived list is the one of [v1]. *)
Lemma with_env_PATH_stale st fr p v1 :
  with_env' {[ "PATH" := v1 ]} (ret tt) (mk_Env Path (st ++ [fr]) p)
  = (mk_Env Path (st ++ [fr]) (derived v1), Ok tt).
Proof.
  apply with_env_frames with (v := v1) (fr' := {[ "PATH" := v1 ]} ∪ fr) (p' := derived v1);
    try done.
  - apply lookup_union_Some_l, lookup_singleton_eq.
  - apply lookup_union_Some_l, lookup_singleton_eq.
Qed.

End EnvFacts.

(** C3: in the sample environment, whose [PATH] is [/bin:/usr/bin], the
    scope [with env(PATH = "/opt/bin"): pass] ends normally and gives back
    the frame it started from, variable for variable, but the derived
    search-path list is left as [/opt/bin]: it is computed ahead of the
    [pop], from the frame that is dropped, and differs from the list derived
    from the [PATH] of the restored frame. *)
Theorem C3_scope_exit_leaves_path_stale :
  let '(e', r) := with_env Sample.Path Sample.mkPath Sample.pathsep
                    {[ "PATH" := "/opt/bin" ]} (ret tt) Sample.sample_env in
  r = Ok tt
  ∧ _envstack _ e' = _envstack _ Sample.sample_env
  ∧ path _ e' = ["/opt/bin"]
  ∧ (∃ fr v, last (_envstack _ e') = Some fr ∧ fr !! "PATH" = Some v
             ∧ map Sample.mkPath (split Sample.pathsep v) = ["/bin"; "/usr/bin"]
             ∧ path _ e' ≠ map Sample.mkPath (split Sample.pathsep v)).
Proof.
  pose proof (with_env_PATH_stale Sample.Path Sample.mkPath Sample.pathsep []
                {[ "PATH" := "/bin:/usr/bin"; "HOME" := "/home" ]}
                ["/bin"; "/usr/bin"] "/opt/bin") as H.
  change (with_env Sample.Path Sample.mkPath Sample.pathsep
            {[ "PATH" := "/opt/bin" ]} (ret tt) Sample.sample_env
          = (mk_Env Sample.Path (_envstack _ Sample.sample_env) ["/opt/bin"], Ok tt)) in H.
  rewrite H. repeat split.
  eexists _, "/bin:/usr/bin". repeat split; done.
Qed.

(** ** The directory stack *)

Section WorkdirFacts.
Variable Path : Type.
Variable mkPath : string → Path.
Variable path_str : Path → string.

Local Notation "'chdir''" := (chdir Path mkPath path_str).
Local Notation "'cwd_enter''" := (cwd_enter Path mkPath path_str).
Local Notation "'cwd_exit''" := (cwd_exit Path mkPath path_str).

Lemma chdir_ok dir st d o :
  dirent_str Path path_str dir ∈ os_dirs o →
  chdir' dir (mk_Workdir Path (st ++ [d]) o)
  = (mk_Workdir Path (st ++ [DPath Path (mkPath (dirent_str Path path_str dir))])
       (set_os_cwd (dirent_str Path path_str dir) o), Ok tt).
Proof.
  intros Hin. unfold chdir, bind, zoom, os_chdir. simpl.
  rewrite bool_decide_eq_true_2 by done. simpl.
  by rewrite py_set_top_snoc.
Qed.

Lemma chdir_fail dir w :
  dirent_str Path path_str dir ∉ os_dirs (wd_os Path w) →
  chdir' dir w = (w, Raise (OSError (dirent_str Path path_str dir))).
Proof.
  intros Hin. unfold chdir, bind, zoom, os_chdir.
  rewrite bool_decide_eq_false_2 by done. by destruct w.
Qed.

(** Entering a scope whose directory the system accepts. *)
Lemma cwd_enter_ok dir st o :
  dirent_str Path path_str dir ∈ os_dirs o →
  cwd_enter' dir (mk_Workdir Path st o)
  = (mk_Workdir Path (st ++ [DPath Path (mkPath (dirent_str Path path_str dir))])
       (set_os_cwd (dirent_str Path path_str dir) o), Ok tt).
Proof.
  intros Hin. unfold cwd_enter, bind, modify, set_dirstack. simpl.
  by rewrite chdir_ok.
Qed.

(** Entering a scope whose directory the system refuses: the [None] that
    was appended ahead of [chdir] stays on the stack. *)
Lemma cwd_enter_fail dir st o :
  dirent_str Path path_str dir ∉ os_dirs o →
  cwd_enter' dir (mk_Workdir Path st o)
  = (mk_Workdir Path (st ++ [DNone Path]) o, Raise (OSError (dirent_str Path path_str dir))).
Proof.
  intros Hin. unfold cwd_enter, bind, modify, set_dirstack. simpl.
  by rewrite chdir_fail.
Qed.

Lemma cwd_exit_ok st d top o :
  dirent_str Path path_str d ∈ os_dirs o →
  cwd_exit' (mk_Workdir Path ((st ++ [d]) ++ [top]) o)
  = (mk_Workdir Path (st ++ [DPath Path (mkPath (dirent_str Path path_str d))])
       (set_os_cwd (dirent_str Path path_str d) o), Ok tt).
Proof.
  intros Hin. unfold cwd_exit, bind, _path. simpl.
  rewrite py_pop_snoc. simpl. rewrite py_top_snoc.
  unfold set_dirstack. simpl. by rewrite chdir_ok.
Qed.

(** When [Path] keeps the string it is made from and the system accepts
    the directory, the directory of the process is the top of the stack
    after [chdir], so after entering and after leaving a scope. *)
Lemma chdir_in_sync dir st d o w' :
  path_str (mkPath (dirent_str Path path_str dir)) = dirent_str Path path_str dir →
  chdir' dir (mk_Workdir Path (st ++ [d]) o) = (w', Ok tt) →
  cwd_in_sync Path path_str w'.
Proof.
  intros Hrt. unfold chdir at 1, bind, zoom, os_chdir. simpl.
  case_bool_decide as Hin; [|done]. simpl.
  rewrite py_set_top_snoc. intros [= <-].
  eexists. simpl. rewrite last_snoc. split; [done|]. split; [done|]. by simpl.
Qed.

End WorkdirFacts.

(** C7: in the sample system, whose directories are [/home] and [/tmp] and
    whose current directory is [/home], entering a scope on a directory that
    does not exist raises [OSError] and leaves the [None] of the push on top
    of the stack; a later scope on [/tmp] is entered, and on leaving it the
    stack is popped to that [None], [chdir] raises, and the process stays in
    [/tmp]: after this pop the current directory is not the top of the
    stack. *)
Theorem C7_failed_push_breaks_sync :
  let w0 := workdir_init Sample.Path Sample.sample_os in
  let '(w1, r1) := with_cwd Sample.Path Sample.mkPath Sample.path_str
                     (DStr _ "/nonexistent") (ret tt) w0 in
  let '(w2, r2) := with_cwd Sample.Path Sample.mkPath Sample.path_str
                     (DStr _ "/tmp") (ret tt) w1 in
  cwd_in_sync Sample.Path Sample.path_str w0
  ∧ r1 = Raise (OSError "/nonexistent")
  ∧ _dirstack _ w1 = [DStr _ "/home"; DNone _]
  ∧ os_cwd (wd_os _ w1) = "/home"
  ∧ ¬ cwd_in_sync Sample.Path Sample.path_str w1
  ∧ r2 = Raise (OSError "None")
  ∧ _dirstack _ w2 = [DStr _ "/home"; DNone _]
  ∧ os_cwd (wd_os _ w2) = "/tmp"
  ∧ ¬ cwd_in_sync Sample.Path Sample.path_str w2.
Proof.
  vm_compute.
  repeat split; try done.
  - eexists. repeat split; done.
  - intros (d & [= <-] & Hd & _). done.
  - intros (d & [= <-] & Hd & _). done.
Qed.

(** ** Process handles, [communicate] and [_run] *)

Lemma upd_lookup_eq h f (t : table) p :
  t !! h = Some p → upd h f t !! h = Some (f p).
Proof. intros H. unfold upd. by rewrite list_lookup_alter_eq, H. Qed.

Lemma upd_lookup_ne h k f (t : table) :
  h ≠ k → upd h f t !! k = t !! k.
Proof. intros H. unfold upd. by rewrite list_lookup_alter_ne. Qed.

Lemma upd_snoc f (t : table) p :
  upd (length t) f (t ++ [p]) = t ++ [f p].
Proof.
  unfold upd. replace (length t) with (length t + 0) by lia.
  by rewrite alter_app_r.
Qed.

Lemma upd_app_r f (t l : table) h :
  length t ≤ h → upd h f (t ++ l) = t ++ upd (h - length t) f l.
Proof. intros H. unfold upd. by rewrite alter_app_r_alt. Qed.

Lemma fresh_not_stale p : fresh p → stale p = false.
Proof.
  intros (_ & Ho & He & _). unfold stale, pipe_attr_of in *.
  rewrite Ho, He. by destruct (ne_PIPE _), (ne_PIPE _).
Qed.

Lemma collected_drained p : drained (collected p).
Proof.
  unfold drained, collected. simpl.
  repeat split; [by destruct (stdout p) | by destruct (stderr p)].
Qed.

Lemma communicate_first h (t : table) p :
  t !! h = Some p → stale p = false →
  communicate h t
  = (upd h collected t,
     Ok (capture (stdout p) (f_out (p_fate p)), capture (stderr p) (f_err (p_fate p)))).
Proof. intros Hp Hs. unfold communicate. by rewrite Hp, Hs. Qed.

(** Whatever [communicate] does, the object keeps its fate and its command
    line, and one more call is counted. *)
Lemma communicate_counts h (t t' : table) p r :
  t !! h = Some p → communicate h t = (t', r) →
  ∃ p', t' !! h = Some p' ∧ communicated p' = S (communicated p)
        ∧ p_fate p' = p_fate p ∧ cmdline p' = cmdline p
        ∧ (is_ok r = true → returncode p' = Some (f_exit (p_fate p))).
Proof.
  intros Hp. unfold communicate. rewrite Hp.
  destruct (stale p); [destruct (f_again (p_fate p))|]; intros [= <- <-];
    (eexists; split; [by apply upd_lookup_eq|]); by simpl.
Qed.

Lemma or_empty_absent : or_empty None = EmptyString.
Proof. done. Qed.

Lemma or_empty_empty : or_empty (Some EmptyString) = EmptyString.
Proof. done. Qed.

Lemma or_empty_text s : s ≠ EmptyString → or_empty (Some s) = s.
Proof. by destruct s. Qed.

(** [_run] on a handle that [communicate] can still read. *)
Lemma _run_first h (t : table) p rc :
  t !! h = Some p → stale p = false →
  let code := Some (f_exit (p_fate p)) in
  let out := or_empty (capture (stdout p) (f_out (p_fate p))) in
  let err := or_empty (capture (stderr p) (f_err (p_fate p))) in
  _run h rc t
  = (upd h collected t,
     if negb (is_None rc) && returncode_ne code rc
     then Raise (ProcessExecutionError (cmdline p) code out err)
     else Ok (code, out, err)).
Proof.
  intros Hp Hs. unfold _run, bind.
  rewrite (communicate_first _ _ _ Hp Hs). simpl.
  rewrite (upd_lookup_eq _ _ _ _ Hp). simpl.
  by destruct (negb (is_None rc) && _).
Qed.

(** The exit-code test of [_run], case by case on the policy. *)
Lemma policy_None code : negb (is_None VNone) && returncode_ne code VNone = false.
Proof. done. Qed.

Lemma policy_Int code n :
  negb (is_None (VInt n)) && returncode_ne (Some code) (VInt n) = negb (bool_decide (code = n)).
Proof.
  simpl. f_equal. case_bool_decide as H.
  - by apply Z.eqb_eq.
  - by apply Z.eqb_neq.
Qed.

Lemma policy_Set code s : negb (is_None (VSet s)) && returncode_ne (Some code) (VSet s) = true.
Proof. done. Qed.

(** ** Spawning: [popen] *)

Section CommandFacts.
Variable Path : Type.
Variable path_str : Path → string.
Variable pathsep : ascii.
Variable os_spawn : table → PopenArgs → option Fate.

Local Notation "'Command_popen''" := (Command_popen Path path_str pathsep os_spawn).
Local Notation "'popen''" := (popen Path path_str pathsep os_spawn).
Local Notation "'run''" := (run Path path_str pathsep os_spawn).
Local Notation "'getdict''" := (getdict Path path_str pathsep).

(** What [Command.popen] leaves behind: the directory stack is untouched,
    and on success exactly one object has been appended to the table, made
    from the streams that were passed in. *)
Lemma Command_popen_spec exe args i o e kw w w' r :
  Command_popen' exe args i o e kw w = (w', r) →
  w_cwd _ w' = w_cwd _ w
  ∧ match r with
    | Ok h =>
        ∃ a f, a_cmdline a = exe :: args ∧ a_executable a = exe
               ∧ a_stdin a = i ∧ a_stdout a = o ∧ a_stderr a = e
               ∧ os_spawn (w_procs _ w) a = Some f
               ∧ h = length (w_procs _ w)
               ∧ w_procs _ w' = w_procs _ w
                   ++ [mk_Popen a f (pipe_attr_of i) (pipe_attr_of o) (pipe_attr_of e)
                         None (exe :: args) None 0]
    | Raise _ => w_procs _ w' = w_procs _ w
    end.
Proof.
  destruct w as [env cwd procs].
  unfold Command_popen, bind, in_cwd, in_env, in_procs, zoom, ret, modify. simpl.
  destruct (kw_cwd kw) as [c|].
  - destruct (kw_env kw) as [d|]; simpl.
    + unfold Popen. destruct (os_spawn procs _) as [f|] eqn:Hf; simpl.
      * intros [= <- <-]. simpl. split; [done|].
        eexists _, f. rewrite upd_snoc. by repeat split.
      * by intros [= <- <-].
    + destruct (getdict' env) as [env' [d|x]]; simpl.
      * unfold Popen. destruct (os_spawn procs _) as [f|] eqn:Hf; simpl.
        -- intros [= <- <-]. simpl. split; [done|].
           eexists _, f. rewrite upd_snoc. by repeat split.
        -- by intros [= <- <-].
      * by intros [= <- <-].
  - simpl. destruct (workdir_str Path path_str cwd) as [cwd' [c|x]] eqn:Hc; simpl.
    + assert (cwd' = cwd) as ->.
      { unfold workdir_str, bind, _path, ret in Hc.
        destruct (py_top (_dirstack Path cwd)); by inversion Hc. }
      destruct (kw_env kw) as [d|]; simpl.
      * unfold Popen. destruct (os_spawn procs _) as [f|] eqn:Hf; simpl.
        -- intros [= <- <-]. simpl. split; [done|].
           eexists _, f. rewrite upd_snoc. by repeat split.
        -- by intros [= <- <-].
      * destruct (getdict' env) as [env' [d|x]]; simpl.
        -- unfold Popen. destruct (os_spawn procs _) as [f|] eqn:Hf; simpl.
           ++ intros [= <- <-]. simpl. split; [done|].
              eexists _, f. rewrite upd_snoc. by repeat split.
           ++ by intros [= <- <-].
        -- by intros [= <- <-].
    + assert (cwd' = cwd) as ->.
      { unfold workdir_str, bind, _path, ret in Hc.
        destruct (py_top (_dirstack Path cwd)); by inversion Hc. }
      by intros [= <- <-].
Qed.

(** Every spawn that is given no [env] takes its snapshot with [getdict],
    and the environment object is left as [getdict] leaves it, also when
    the system then refuses to execute the program. *)
Lemma Command_popen_env exe args i o e kw w w' r :
  kw_env kw = None →
  (kw_cwd kw = None → _dirstack _ (w_cwd _ w) ≠ []) →
  Command_popen' exe args i o e kw w = (w', r) →
  w_env _ w' = (getdict' (w_env _ w)).1.
Proof.
  intros Henv Hcwd. destruct w as [env [st os] procs].
  unfold Command_popen, bind, in_cwd, in_env, in_procs, zoom, ret, modify.
  rewrite Henv. simpl in *.
  destruct (kw_cwd kw) as [c|]; simpl.
  - destruct (getdict' env) as [env' [d|x]]; simpl;
      [unfold Popen; destruct (os_spawn procs _); simpl|]; by intros [= <- <-].
  - unfold workdir_str, bind, _path, ret. simpl.
    destruct st as [|d st _] using rev_ind; [by destruct Hcwd|].
    rewrite py_top_snoc. simpl.
    destruct (getdict' env) as [env' [d'|x]]; simpl;
      [unfold Popen; destruct (os_spawn procs _); simpl|]; by intros [= <- <-].
Qed.

End CommandFacts.

(** C9: a spawn that is given no [env] calls [getdict] on the environment
    stack, and [getdict] writes the derived search-path list, joined with
    the separator, into the [PATH] entry of the frame on top; the list
    itself and the frames below are left alone.  So whenever the joined list
    is not what [PATH] held, taking the snapshot changes the [PATH] variable
    of the active view. *)
Theorem C9_spawn_snapshot_writes_PATH
    (Path : Type) (path_str : Path → string) (pathsep : ascii)
    (os_spawn : table → PopenArgs → option Fate)
    exe args i o e kw (w w' : World Path) r st fr :
  kw_env kw = None →
  (kw_cwd kw = None → _dirstack _ (w_cwd _ w) ≠ []) →
  _envstack _ (w_env _ w) = st ++ [fr] →
  Command_popen Path path_str pathsep os_spawn exe args i o e kw w = (w', r) →
  let written := join (String pathsep EmptyString) (map path_str (path _ (w_env _ w))) in
  getdict Path path_str pathsep (w_env _ w) = (w_env _ w', Ok (<["PATH" := written]> fr))
  ∧ _envstack _ (w_env _ w') = st ++ [<["PATH" := written]> fr]
  ∧ path _ (w_env _ w') = path _ (w_env _ w)
  ∧ (fr !! "PATH" ≠ Some written →
     ∃ fr', last (_envstack _ (w_env _ w')) = Some fr' ∧ fr' !! "PATH" ≠ fr !! "PATH").
Proof.
  intros Henv Hcwd Hst Hpopen written.
  pose proof (Command_popen_env _ _ _ _ _ _ _ _ _ _ _ _ _ Henv Hcwd Hpopen) as He.
  destruct (w_env Path w) as [stack p] eqn:Ew. simpl in Hst. subst stack.
  rewrite getdict_snoc in He |- *. simpl in He. rewrite He. simpl.
  repeat split.
  intros Hne. eexists. rewrite last_snoc. split; [done|].
  rewrite lookup_insert_eq. intros Heq. apply Hne. by rewrite <- Heq.
Qed.

Lemma C9_spawn_snapshot_writes_PATH_witness :
  let w := Sample.appended_world in
  let out := Command_popen Sample.Path Sample.path_str Sample.pathsep Sample.sample_spawn
               "/bin/ls" [] PIPE PIPE PIPE no_kwargs w in
  ∃ fr', last (_envstack _ (w_env _ out.1)) = Some fr'
         ∧ fr' !! "PATH" = Some "/bin:/usr/bin:/lalalala"
         ∧ fr' !! "PATH" ≠ Some "/bin:/usr/bin".
Proof.
  intros w out.
  destruct (C9_spawn_snapshot_writes_PATH Sample.Path Sample.path_str Sample.pathsep
              Sample.sample_spawn "/bin/ls" [] PIPE PIPE PIPE no_kwargs w out.1 out.2 []
              {[ "PATH" := "/bin:/usr/bin"; "HOME" := "/home" ]})
    as (_ & Hst & _ & Hmut).
  - reflexivity.
  - intros _. discriminate.
  - reflexivity.
  - apply surjective_pairing.
  - exists (<["PATH" := "/bin:/usr/bin:/lalalala"]>
              ({[ "PATH" := "/bin:/usr/bin"; "HOME" := "/home" ]} : gmap string string)).
    rewrite Hst. split; [reflexivity|]. split; [reflexivity|]. discriminate.
Defined.

Lemma upd_middle f (t1 t2 : table) p h :
  h = length t1 → upd h f (t1 ++ p :: t2) = t1 ++ f p :: t2.
Proof.
  intros ->. unfold upd. replace (length t1) with (length t1 + 0) by lia.
  by rewrite alter_app_r.
Qed.

Section PopenFacts.
Variable Path : Type.
Variable path_str : Path → string.
Variable pathsep : ascii.
Variable os_spawn : table → PopenArgs → option Fate.

Local Notation "'Command_popen''" := (Command_popen Path path_str pathsep os_spawn).
Local Notation "'popen''" := (popen Path path_str pathsep os_spawn).
Local Notation "'run''" := (run Path path_str pathsep os_spawn).

Lemma set_w_procs_id (w : World Path) : set_w_procs Path (w_procs Path w) w = w.
Proof. by destruct w. Qed.

Lemma Command_popen_post exe args i o e kw w w' r :
  Command_popen' exe args i o e kw w = (w', r) → popen_post w w' r.
Proof.
  intros H. apply Command_popen_spec in H as [Hc H]. split; [done|].
  destruct r as [h|x].
  - destruct H as (a & f & Ha & _ & Hi & Ho & He & _ & -> & ->).
    exists [], (mk_Popen a f (pipe_attr_of i) (pipe_attr_of o) (pipe_attr_of e)
                  None (exe :: args) None 0).
    rewrite app_nil_r. repeat split; simpl; congruence.
  - exists []. by rewrite app_nil_r.
Qed.

(** [Pipeline.popen], step by step. *)
Lemma Pipeline_popen_inv srccmd dstcmd i o e kw w w' r :
  (∀ w w' r, popen' srccmd i PIPE PIPE kw w = (w', r) → popen_post w w' r) →
  (∀ i' w w' r, popen' dstcmd i' o e kw w = (w', r) → popen_post w w' r) →
  popen' (Pipeline srccmd dstcmd) i o e kw w = (w', r) →
  w_cwd _ w' = w_cwd _ w
  ∧ match r with
    | Ok h =>
        ∃ ws hs wd t1 ps t2 pd,
          popen' srccmd i PIPE PIPE kw w = (ws, Ok hs)
          ∧ popen' dstcmd (EPipe hs) o e kw ws = (wd, Ok h)
          ∧ w_procs _ ws = (w_procs _ w ++ t1) ++ [ps]
          ∧ hs = length (w_procs _ w ++ t1)
          ∧ fresh ps ∧ stdout ps = PipeOpen ∧ stderr ps = PipeOpen
          ∧ w_procs _ wd = (w_procs _ ws ++ t2) ++ [pd]
          ∧ h = length (w_procs _ ws ++ t2)
          ∧ fresh pd
          ∧ w_env _ w' = w_env _ wd
          ∧ w_procs _ w' = (((w_procs _ w ++ t1) ++ [close_stderr (close_stdout ps)]) ++ t2)
                             ++ [set_srcproc hs pd]
    | Raise _ => ∃ l, w_procs _ w' = w_procs _ w ++ l
    end.
Proof.
  intros Hsrc Hdst. simpl. unfold bind.
  destruct (popen' srccmd i PIPE PIPE kw w) as [ws [hs|x]] eqn:Es.
  2: { intros [= <- <-]. destruct (Hsrc _ _ _ Es) as (Hc & l & Hl). eauto. }
  destruct (Hsrc _ _ _ Es) as (Hc1 & t1 & ps & Hws & Hhs & Hfps).
  assert (w_procs _ ws !! hs = Some ps) as Hlk.
  { rewrite Hws, Hhs. by apply list_lookup_middle. }
  unfold in_procs at 1, zoom, stdout_of. rewrite Hlk, set_w_procs_id.
  destruct (popen' dstcmd _ o e kw ws) as [wd [hd|x]] eqn:Ed.
  2: { intros [= <- <-]. destruct (Hdst _ _ _ _ Ed) as (Hc & l & Hl).
       split; [congruence|]. exists ((t1 ++ [ps]) ++ l).
       by rewrite Hl, Hws, !app_assoc. }
  destruct (Hdst _ _ _ _ Ed) as (Hc2 & t2 & pd & Hwd & Hhd & Hfpd).
  assert (w_procs _ wd = (w_procs _ w ++ t1) ++ ps :: (t2 ++ [pd])) as Hshape.
  { rewrite Hwd, Hws. by rewrite <- !app_assoc. }
  assert (w_procs _ wd !! hs = Some ps) as Hlk2.
  { rewrite Hshape. by apply list_lookup_middle. }
  unfold in_procs at 1, zoom, stdout_close. rewrite Hlk2.
  destruct Hfps as (Hfi & Hfo & Hfe & Hfr & Hfc & Hfl).
  destruct (stdout ps) eqn:Eo.
  { intros [= <- <-]. rewrite set_w_procs_id. split; [congruence|].
    exists (t1 ++ ps :: t2 ++ [pd]). by rewrite Hshape, <- !app_assoc. }
  2: { unfold pipe_attr_of in Hfo. by destruct (ne_PIPE _). }
  rewrite Hshape, (upd_middle _ _ _ _ _ Hhs).
  unfold in_procs at 1, zoom, stderr_close. simpl.
  rewrite (list_lookup_middle _ _ _ _ Hhs). simpl.
  destruct (stderr ps) eqn:Ee.
  { intros [= <- <-]. simpl. split; [congruence|].
    exists (t1 ++ close_stdout ps :: t2 ++ [pd]). by rewrite <- !app_assoc. }
  2: { unfold pipe_attr_of in Hfe. by destruct (ne_PIPE _). }
  rewrite (upd_middle _ _ _ _ _ Hhs).
  unfold in_procs, zoom, modify, ret. simpl.
  intros [= <- <-]. simpl. split; [congruence|].
  exists ws, hs, wd, t1, ps, t2, pd.
  assert (upd hd (set_srcproc hs)
            ((w_procs _ w ++ t1) ++ close_stderr (close_stdout ps) :: t2 ++ [pd])
          = (((w_procs _ w ++ t1) ++ [close_stderr (close_stdout ps)]) ++ t2)
              ++ [set_srcproc hs pd]) as ->.
  { replace ((w_procs _ w ++ t1) ++ close_stderr (close_stdout ps) :: t2 ++ [pd])
      with ((((w_procs _ w ++ t1) ++ [close_stderr (close_stdout ps)]) ++ t2) ++ [pd])
      by (by rewrite <- !app_assoc).
    apply upd_middle. rewrite Hhd, Hws, !length_app. simpl. lia. }
  repeat split; first [done | congruence | apply Hfpd].
Qed.

(** Every [popen] extends the table and, when it returns, returns the
    handle of a fresh object at its end. *)
Lemma popen_spec u : ∀ i o e kw w w' r,
  popen' u i o e kw w = (w', r) → popen_post w w' r.
Proof.
  induction u as [exe|exe args|src IHs dst IHd|u IH i0 o0 e0]; intros i o e kw w w' r H.
  - by apply Command_popen_post in H.
  - by apply Command_popen_post in H.
  - apply Pipeline_popen_inv in H as [Hc H]; [|by eauto..].
    split; [done|]. destruct r as [h|x]; [|done].
    destruct H as (ws & hs & wd & t1 & ps & t2 & pd & _ & _ & Hws & Hhs & _ & _ & _
                   & Hwd & Hhd & Hfpd & _ & Hw').
    exists ((t1 ++ [close_stderr (close_stdout ps)]) ++ t2), (set_srcproc hs pd).
    split; [by rewrite Hw', <- !app_assoc|]. split; [|done].
    rewrite Hhd, Hws, !length_app. simpl. lia.
  - by apply IH in H.
Qed.

(** [run]: once [popen] has returned the handle [h] of the object [p],
    the process is collected and the exit code is tested. *)
Lemma run_spec u rc i o e kw w w1 h p :
  popen' u i o e kw w = (w1, Ok h) →
  w_procs _ w1 !! h = Some p →
  fresh p
  ∧ run' u rc i o e kw w
    = (set_w_procs _ (upd h collected (w_procs _ w1)) w1,
       if negb (is_None rc) && returncode_ne (Some (f_exit (p_fate p))) rc
       then Raise (ProcessExecutionError (cmdline p) (Some (f_exit (p_fate p)))
                     (or_empty (capture (stdout p) (f_out (p_fate p))))
                     (or_empty (capture (stderr p) (f_err (p_fate p)))))
       else Ok (Some (f_exit (p_fate p)),
                or_empty (capture (stdout p) (f_out (p_fate p))),
                or_empty (capture (stderr p) (f_err (p_fate p))))).
Proof.
  intros Hpopen Hp.
  destruct (popen_spec _ _ _ _ _ _ _ _ Hpopen) as (_ & l & p0 & Hw1 & Hh & Hfresh).
  assert (p0 = p) as ->.
  { rewrite Hw1, (list_lookup_middle _ [] _ _ Hh) in Hp. by inversion Hp. }
  split; [done|].
  unfold run, bind. rewrite Hpopen. unfold in_procs, zoom.
  by rewrite (_run_first _ _ _ rc Hp (fresh_not_stale _ Hfresh)).
Qed.

End PopenFacts.

(** ** The exit-code policy of [run] *)

(** C2, as the code has it: [run] takes an integer or [None] as the
    expected exit code.  With an integer it returns normally exactly when
    the exit code of the process equals it; with [None] it returns normally
    whatever the exit code; any other value, a set of integers among them,
    is compared with the exit code by [!=] and never equals it, so [run]
    raises for every exit code.  When [run] does not return normally it
    raises [ProcessExecutionError] with the exit code of the process. *)
Theorem C2_run_exit_code_policy
    (Path : Type) (path_str : Path → string) (pathsep : ascii)
    (os_spawn : table → PopenArgs → option Fate)
    u i o e kw (w w1 : World Path) h p :
  popen Path path_str pathsep os_spawn u i o e kw w = (w1, Ok h) →
  w_procs _ w1 !! h = Some p →
  let code := f_exit (p_fate p) in
  let outcome rc := (run Path path_str pathsep os_spawn u rc i o e kw w).2 in
  (∀ n, is_ok (outcome (VInt n)) = true ↔ code = n)
  ∧ is_ok (outcome VNone) = true
  ∧ (∀ s, is_ok (outcome (VSet s)) = false)
  ∧ (∀ rc, is_ok (outcome rc) = false →
       ∃ out err, outcome rc = Raise (ProcessExecutionError (cmdline p) (Some code) out err)).
Proof.
  intros Hpopen Hp code outcome.
  assert (∀ rc, outcome rc
                = if negb (is_None rc) && returncode_ne (Some code) rc
                  then Raise (ProcessExecutionError (cmdline p) (Some code)
                                (or_empty (capture (stdout p) (f_out (p_fate p))))
                                (or_empty (capture (stderr p) (f_err (p_fate p)))))
                  else Ok (Some code,
                           or_empty (capture (stdout p) (f_out (p_fate p))),
                           or_empty (capture (stderr p) (f_err (p_fate p))))) as Hout.
  { intros rc. unfold outcome.
    destruct (run_spec _ _ _ _ u rc _ _ _ _ _ _ _ _ Hpopen Hp) as [_ ->]. done. }
  repeat split.
  - rewrite Hout, policy_Int. case_bool_decide; [done|]. simpl. discriminate.
  - intros <-. rewrite Hout, policy_Int. by rewrite bool_decide_eq_true_2.
  - by rewrite Hout, policy_None.
  - intros s. by rewrite Hout, policy_Set.
  - intros rc. rewrite Hout.
    destruct (negb (is_None rc) && _); [by eauto|done].
Qed.

Lemma C2_run_exit_code_policy_witness :
  let outcome rc := (Sample.sample_run Sample.false_ rc PIPE PIPE PIPE no_kwargs
                       Sample.sample_world).2 in
  is_ok (outcome (VInt 1)) = true
  ∧ is_ok (outcome (VInt 0)) = false
  ∧ is_ok (outcome VNone) = true
  ∧ is_ok (outcome (VSet {[ 0%Z; 1%Z ]})) = false.
Proof.
  intros outcome.
  pose (w1 := (Sample.sample_popen Sample.false_ PIPE PIPE PIPE no_kwargs
                 Sample.sample_world).1).
  destruct (C2_run_exit_code_policy Sample.Path Sample.path_str Sample.pathsep
              Sample.sample_spawn Sample.false_ PIPE PIPE PIPE no_kwargs
              Sample.sample_world w1 0
              (mk_Popen
                 (mk_PopenArgs ["/bin/false"] "/bin/false" PIPE PIPE PIPE "/home"
                    {[ "PATH" := "/bin:/usr/bin"; "HOME" := "/home" ]})
                 (mk_Fate 1 "/bin/false" EmptyString None)
                 PipeOpen PipeOpen PipeOpen None ["/bin/false"] None 0))
    as (Hexact & Hnone & Hset & _).
  - vm_compute. reflexivity.
  - vm_compute. reflexivity.
  - split; [by apply Hexact|]. split; [|split; [exact Hnone | apply Hset]].
    destruct (is_ok (outcome (VInt 0))) eqn:E; [|done].
    by apply Hexact in E.
Defined.

(** C2, as the claim has it, fails: [/bin/ls] exits with 0, which is a
    member of the set [{0, 1}], and [run] with that set as the expected
    exit code raises [ProcessExecutionError]. *)
Lemma C2_set_policy_counterexample :
  (0%Z ∈ ({[ 0%Z; 1%Z ]} : gset Z))
  ∧ (Sample.sample_run Sample.ls (VSet {[ 0%Z; 1%Z ]}) PIPE PIPE PIPE no_kwargs
       Sample.sample_world).2
    = Raise (ProcessExecutionError ["/bin/ls"] (Some 0%Z) "/bin/ls" EmptyString).
Proof. split; [set_solver|]. vm_compute. reflexivity. Qed.

(** ** What [run] returns and what it raises *)

Lemma or_empty_default o : or_empty o = default EmptyString o.
Proof. by destruct o as [[|c s]|]. Qed.

(** C4: once the unit is spawned, [run] ends in a state where the process
    has exited and been waited for and neither pipe of the handle is left
    open, after exactly one [communicate].  On a match, that is when the
    expected exit code is [None] or is the integer the process exited with,
    [run] returns the exit code, the output text and the error text.  On a
    mismatch, that is for any other integer and for any value that is no
    integer, it raises [ProcessExecutionError] with the command line the
    process was started with, its exit code and the same two texts.  Each
    text is what the process wrote when the stream was captured, and the
    empty string when the stream was not captured or gave nothing. *)
Theorem C4_run_result_and_error
    (Path : Type) (path_str : Path → string) (pathsep : ascii)
    (os_spawn : table → PopenArgs → option Fate)
    u rc i o e kw (w w1 : World Path) h p :
  popen Path path_str pathsep os_spawn u i o e kw w = (w1, Ok h) →
  w_procs _ w1 !! h = Some p →
  let code := f_exit (p_fate p) in
  let out := default EmptyString (capture (stdout p) (f_out (p_fate p))) in
  let err := default EmptyString (capture (stderr p) (f_err (p_fate p))) in
  ∃ w' p',
    (run Path path_str pathsep os_spawn u rc i o e kw w).1 = w'
    ∧ (rc = VNone ∨ rc = VInt code →
       run Path path_str pathsep os_spawn u rc i o e kw w
       = (w', Ok (Some code, out, err)))
    ∧ ((∃ n, rc = VInt n ∧ n ≠ code) ∨ (∃ s, rc = VSet s) →
       run Path path_str pathsep os_spawn u rc i o e kw w
       = (w', Raise (ProcessExecutionError (cmdline p) (Some code) out err)))
    ∧ w_procs _ w' !! h = Some p'
    ∧ drained p' ∧ communicated p' = 1
    ∧ cmdline p = a_cmdline (p_args p)
    ∧ (stdout p = PipeOpen → out = f_out (p_fate p))
    ∧ (stderr p = PipeOpen → err = f_err (p_fate p))
    ∧ (stdout p = NoPipe ∨ f_out (p_fate p) = EmptyString → out = EmptyString)
    ∧ (stderr p = NoPipe ∨ f_err (p_fate p) = EmptyString → err = EmptyString).
Proof.
  intros Hpopen Hp code out err.
  destruct (run_spec _ _ _ _ u rc _ _ _ _ _ _ _ _ Hpopen Hp) as [Hfresh Hrun].
  eexists _, (collected p). rewrite Hrun. fold code. rewrite !or_empty_default.
  fold out err. split; [done|]. split; [|split].
  - intros [-> | ->].
    + by rewrite policy_None.
    + rewrite policy_Int. by rewrite bool_decide_eq_true_2.
  - intros [(n & -> & Hn) | (s & ->)].
    + rewrite policy_Int. by rewrite bool_decide_eq_false_2.
    + by rewrite policy_Set.
  - split. { simpl. by apply upd_lookup_eq. }
    split; [apply collected_drained|].
    destruct Hfresh as (_ & _ & _ & _ & Hc & Hl). simpl. rewrite Hc.
    subst out err. repeat split; try done.
    + by intros ->.
    + by intros ->.
    + intros [-> | ->]; [done|]. by destruct (stdout p).
    + intros [-> | ->]; [done|]. by destruct (stderr p).
Qed.

Lemma C4_run_result_and_error_witness :
  (Noisy.run Sample.ls (VInt 0) PIPE PIPE PIPE no_kwargs Sample.sample_world).2
  = Ok (Some 0%Z, "listing", "warning")
  ∧ (Noisy.run Sample.false_ (VInt 0) PIPE PIPE PIPE no_kwargs Sample.sample_world).2
    = Raise (ProcessExecutionError ["/bin/false"] (Some 1%Z) "listing" "warning")
  ∧ (Noisy.run Sample.false_ VNone PIPE ENone (EFile (mk_file "log.txt" ModeW)) no_kwargs
       Sample.sample_world).2
    = Ok (Some 1%Z, EmptyString, EmptyString).
Proof.
  split; [|split].
  - destruct (C4_run_result_and_error Sample.Path Sample.path_str Sample.pathsep
                Noisy.spawn Sample.ls (VInt 0) PIPE PIPE PIPE no_kwargs
                Sample.sample_world
                (Noisy.popen Sample.ls PIPE PIPE PIPE no_kwargs Sample.sample_world).1 0
                (Noisy.handle_of "/bin/ls" PIPE PIPE))
      as (w' & p' & _ & Hmatch & _).
    + vm_compute. reflexivity.
    + vm_compute. reflexivity.
    + unfold Noisy.run. rewrite Hmatch; [reflexivity|]. right. reflexivity.
  - destruct (C4_run_result_and_error Sample.Path Sample.path_str Sample.pathsep
                Noisy.spawn Sample.false_ (VInt 0) PIPE PIPE PIPE no_kwargs
                Sample.sample_world
                (Noisy.popen Sample.false_ PIPE PIPE PIPE no_kwargs Sample.sample_world).1 0
                (Noisy.handle_of "/bin/false" PIPE PIPE))
      as (w' & p' & _ & _ & Hmismatch & _).
    + vm_compute. reflexivity.
    + vm_compute. reflexivity.
    + unfold Noisy.run. rewrite Hmismatch; [reflexivity|].
      left. exists 0%Z. split; [reflexivity|]. discriminate.
  - destruct (C4_run_result_and_error Sample.Path Sample.path_str Sample.pathsep
                Noisy.spawn Sample.false_ VNone PIPE ENone
                (EFile (mk_file "log.txt" ModeW)) no_kwargs Sample.sample_world
                (Noisy.popen Sample.false_ PIPE ENone (EFile (mk_file "log.txt" ModeW))
                   no_kwargs Sample.sample_world).1 0
                (Noisy.handle_of "/bin/false" ENone (EFile (mk_file "log.txt" ModeW))))
      as (w' & p' & _ & Hmatch & _).
    + vm_compute. reflexivity.
    + vm_compute. reflexivity.
    + unfold Noisy.run. rewrite Hmatch; [reflexivity|]. left. reflexivity.
Defined.

(** ** Futures *)

Lemma ready_spec s : ready s = (s, Ok (bool_decide (_returncode (fut s) ≠ None))).
Proof. done. Qed.

Lemma wait_resolved s : _returncode (fut s) ≠ None → wait s = (s, Ok tt).
Proof.
  intros H. unfold wait, bind. rewrite ready_spec.
  by rewrite bool_decide_eq_true_2.
Qed.

Lemma wait_pending s :
  _returncode (fut s) = None →
  wait s
  = match _run (proc (fut s)) (_expected_retcode (fut s)) (fut_procs s) with
    | (t, Ok res) =>
        ({| fut := {| proc := proc (fut s);
                      _expected_retcode := _expected_retcode (fut s);
                      _returncode := res.1.1;
                      _stdout := Some res.1.2;
                      _stderr := Some res.2 |};
            fut_procs := t |}, Ok tt)
    | (t, Raise x) => ({| fut := fut s; fut_procs := t |}, Raise x)
    end.
Proof.
  intros H. unfold wait, bind. rewrite ready_spec.
  rewrite bool_decide_eq_false_2 by (by rewrite H; intros []).
  unfold zoom, modify.
  by destruct (_run _ _ _) as [t [res|x]].
Qed.

(** A [_run] that returns has read an exit code off the handle. *)
Lemma _run_Ok h rc (t t' : table) c out err :
  _run h rc t = (t', Ok (c, out, err)) →
  ∃ p, t !! h = Some p ∧ c = Some (f_exit (p_fate p)).
Proof.
  unfold _run, bind.
  destruct (communicate h t) as [t1 [oe|x]] eqn:Ec; [|done].
  destruct (t !! h) as [p|] eqn:Hp; [|by unfold communicate in Ec; rewrite Hp in Ec].
  destruct (communicate_counts _ _ _ _ _ Hp Ec) as (p' & Hp' & _ & _ & _ & Hrc).
  rewrite Hp'. rewrite (Hrc eq_refl).
  destruct (negb (is_None rc) && _); [done|].
  intros [= <- <- <- <-]. by exists p.
Qed.

(** The accessors are [wait] followed by a read of the cached field. *)
Lemma Future_stdout_spec s :
  Future_stdout s
  = match wait s with
    | (s', Ok _) => (s', Ok (_stdout (fut s')))
    | (s', Raise x) => (s', Raise x)
    end.
Proof. unfold Future_stdout, bind. by destruct (wait s) as [s' [[]|x]]. Qed.

Lemma Future_stderr_spec s :
  Future_stderr s
  = match wait s with
    | (s', Ok _) => (s', Ok (_stderr (fut s')))
    | (s', Raise x) => (s', Raise x)
    end.
Proof. unfold Future_stderr, bind. by destruct (wait s) as [s' [[]|x]]. Qed.

Lemma Future_returncode_spec s :
  Future_returncode s
  = match wait s with
    | (s', Ok _) => (s', Ok (_returncode (fut s')))
    | (s', Raise x) => (s', Raise x)
    end.
Proof. unfold Future_returncode, bind. by destruct (wait s) as [s' [[]|x]]. Qed.

Lemma wait_Ok_resolved s s1 u :
  wait s = (s1, Ok u) → _returncode (fut s1) ≠ None.
Proof.
  destruct (_returncode (fut s)) as [c|] eqn:Hc.
  - rewrite wait_resolved by (by rewrite Hc). intros [= <-]. by rewrite Hc.
  - rewrite wait_pending by done.
    destruct (_run _ _ _) as [t [[[c out] err]|x]] eqn:Hrun; [|done].
    intros [= <-]. simpl.
    apply _run_Ok in Hrun as (p & _ & ->). done.
Qed.

(** C5: after a [wait] that returned, the future is resolved: [ready]
    answers [True]; a further [wait] changes neither the future nor any
    process handle and returns the same [None]; the three accessors return
    the cached fields and change nothing either, so they can be read in any
    order without the process being collected again.  [ready] never changes
    the state, and it answers [False] on a future that was just created. *)
Theorem C5_wait_idempotent s s1 :
  wait s = (s1, Ok tt) →
  ready s1 = (s1, Ok true)
  ∧ wait s1 = (s1, Ok tt)
  ∧ Future_stdout s1 = (s1, Ok (_stdout (fut s1)))
  ∧ Future_stderr s1 = (s1, Ok (_stderr (fut s1)))
  ∧ Future_returncode s1 = (s1, Ok (_returncode (fut s1)))
  ∧ (∀ s', (ready s').1 = s')
  ∧ (∀ h rc t, ready {| fut := Future_init h rc; fut_procs := t |}
               = ({| fut := Future_init h rc; fut_procs := t |}, Ok false)).
Proof.
  intros Hwait. apply wait_Ok_resolved in Hwait as Hres.
  rewrite Future_stdout_spec, Future_stderr_spec, Future_returncode_spec.
  rewrite ready_spec, (wait_resolved _ Hres), bool_decide_eq_true_2 by done.
  repeat split.
Qed.

Lemma C5_wait_idempotent_witness :
  let s := {| fut := Future_init 0 (VInt 0);
              fut_procs := (Sample.sample_popen Sample.ls PIPE PIPE PIPE no_kwargs
                              Sample.sample_world).1.(w_procs _) |} in
  let s1 := (wait s).1 in
  wait s1 = (s1, Ok tt)
  ∧ Future_stdout s1 = (s1, Ok (Some "/bin/ls"))
  ∧ Future_returncode s1 = (s1, Ok (Some 0%Z)).
Proof.
  intros s s1.
  destruct (C5_wait_idempotent s s1) as (_ & Hw & Hout & _ & Hrc & _).
  - vm_compute. reflexivity.
  - split; [exact Hw|]. split; [exact Hout | exact Hrc].
Defined.

(** The state of a future whose process has been waited for with an exit
    code that fails the test of [_run], while the future is still pending. *)
Lemma failed_wait_step s p :
  _returncode (fut s) = None →
  fut_procs s !! proc (fut s) = Some p →
  returncode p = Some (f_exit (p_fate p)) →
  negb (is_None (_expected_retcode (fut s)))
    && returncode_ne (Some (f_exit (p_fate p))) (_expected_retcode (fut s)) = true →
  ∃ s' x p',
    wait s = (s', Raise x)
    ∧ fut s' = fut s
    ∧ fut_procs s' !! proc (fut s) = Some p'
    ∧ returncode p' = Some (f_exit (p_fate p'))
    ∧ p_fate p' = p_fate p
    ∧ communicated p' = S (communicated p).
Proof.
  intros Hpend Hp Hrc Htest. rewrite wait_pending by done.
  unfold _run, bind, communicate. rewrite Hp.
  destruct (stale p).
  - destruct (f_again (p_fate p)) as [oe|].
    + rewrite (upd_lookup_eq _ _ _ _ Hp).
      change (returncode (collected p)) with (Some (f_exit (p_fate p))).
      cbn [fst snd]. rewrite Htest.
      eexists _, _, (collected p). split; [reflexivity|]. simpl.
      by rewrite (upd_lookup_eq _ _ _ _ Hp).
    + eexists _, _, (count_call p). split; [reflexivity|]. simpl.
      by rewrite (upd_lookup_eq _ _ _ _ Hp).
  - rewrite (upd_lookup_eq _ _ _ _ Hp).
    change (returncode (collected p)) with (Some (f_exit (p_fate p))).
    cbn [fst snd]. rewrite Htest.
    eexists _, _, (collected p). split; [reflexivity|]. simpl.
    by rewrite (upd_lookup_eq _ _ _ _ Hp).
Qed.

(** A [wait] that raises [ProcessExecutionError] leaves the future pending
    and its process waited for, with an exit code that fails the test. *)
Lemma wait_raises_PEE s s1 c code out err :
  wait s = (s1, Raise (ProcessExecutionError c code out err)) →
  fut s1 = fut s
  ∧ _returncode (fut s) = None
  ∧ ∃ p, fut_procs s1 !! proc (fut s) = Some p
         ∧ returncode p = Some (f_exit (p_fate p))
         ∧ negb (is_None (_expected_retcode (fut s)))
             && returncode_ne (Some (f_exit (p_fate p))) (_expected_retcode (fut s)) = true.
Proof.
  destruct (_returncode (fut s)) as [rc|] eqn:Hpend.
  { rewrite wait_resolved by (by rewrite Hpend). done. }
  rewrite wait_pending by done.
  unfold _run, bind.
  destruct (communicate _ _) as [t1 [oe|x]] eqn:Ec.
  2: { unfold communicate in Ec.
       destruct (fut_procs s !! proc (fut s)) as [p|]; [|by inversion Ec].
       destruct (stale p); [destruct (f_again (p_fate p))|]; inversion Ec; done. }
  destruct (fut_procs s !! proc (fut s)) as [p|] eqn:Hp;
    [|by unfold communicate in Ec; rewrite Hp in Ec].
  destruct (communicate_counts _ _ _ _ _ Hp Ec) as (p' & Hp' & _ & Hf & _ & Hrc).
  rewrite Hp'. rewrite (Hrc eq_refl).
  destruct (negb (is_None _) && _) eqn:Htest; [|done].
  intros [= <- _ _ _ _]. simpl. repeat split.
  exists p'. rewrite Hf. repeat split; try done. by apply Hrc.
Qed.

(** C10: when [wait] raises [ProcessExecutionError] the fields of the future
    are as before the call and [ready] answers [False]; and so it stays,
    however often [wait] or an accessor is called after that: each such call
    runs [communicate] once more on the handle (the count of its calls goes
    up by one), raises, and leaves the future pending. *)
Theorem C10_failed_wait_never_resolves s s1 c code out err :
  wait s = (s1, Raise (ProcessExecutionError c code out err)) →
  fut s1 = fut s
  ∧ ready s1 = (s1, Ok false)
  ∧ ∀ n, let sn := rewait n s1 in
         fut sn = fut s
         ∧ ready sn = (sn, Ok false)
         ∧ is_ok (wait sn).2 = false
         ∧ (Future_stdout sn).1 = (wait sn).1
         ∧ is_ok (Future_stdout sn).2 = false
         ∧ is_ok (Future_stderr sn).2 = false
         ∧ is_ok (Future_returncode sn).2 = false
         ∧ ∃ p p', fut_procs sn !! proc (fut s) = Some p
                   ∧ fut_procs (wait sn).1 !! proc (fut s) = Some p'
                   ∧ communicated p' = S (communicated p).
Proof.
  intros Hwait.
  destruct (wait_raises_PEE _ _ _ _ _ _ Hwait) as (Hfut & Hpend & p1 & Hp1 & Hrc1 & Htest1).
  split; [done|]. split.
  { rewrite ready_spec, Hfut, Hpend. done. }
  assert (∀ n, fut (rewait n s1) = fut s
               ∧ ∃ p, fut_procs (rewait n s1) !! proc (fut s) = Some p
                      ∧ returncode p = Some (f_exit (p_fate p))
                      ∧ p_fate p = p_fate p1) as Hinv.
  { induction n as [|n (IHf & p & Hp & Hrc & Hfate)].
    - split; [done|]. by exists p1.
    - simpl. change (Nat.iter n _ s1) with (rewait n s1).
      destruct (failed_wait_step (rewait n s1) p) as (s' & x & p' & Hw & Hf' & Hp' & Hrc' & Hfate' & _).
      + by rewrite IHf.
      + by rewrite IHf.
      + done.
      + by rewrite IHf, Hfate.
      + rewrite Hw. simpl. split; [congruence|].
        exists p'. rewrite <- IHf. repeat split; try done. congruence. }
  intros n sn. destruct (Hinv n) as (IHf & p & Hp & Hrc & Hfate).
  destruct (failed_wait_step sn p) as (s' & x & p' & Hw & Hf' & Hp' & Hrc' & Hfate' & Hcount).
  - subst sn. by rewrite IHf.
  - subst sn. by rewrite IHf.
  - done.
  - subst sn. by rewrite IHf, Hfate.
  - rewrite Future_stdout_spec, Future_stderr_spec, Future_returncode_spec, Hw.
    split; [done|]. split.
    { rewrite ready_spec. subst sn. by rewrite IHf, Hpend. }
    repeat split. exists p, p'.
    split; [exact Hp|]. split; [|exact Hcount].
    simpl. subst sn. by rewrite IHf in Hp'.
Qed.

Lemma C10_failed_wait_never_resolves_witness :
  let s := {| fut := Future_init 0 (VInt 0);
              fut_procs := (Sample.sample_popen Sample.false_ PIPE PIPE PIPE no_kwargs
                              Sample.sample_world).1.(w_procs _) |} in
  let s1 := (wait s).1 in
  (wait s).2 = Raise (ProcessExecutionError ["/bin/false"] (Some 1%Z) "/bin/false" EmptyString)
  ∧ ready s1 = (s1, Ok false)
  ∧ is_ok (wait (rewait 2 s1)).2 = false
  ∧ is_ok (Future_returncode (rewait 3 s1)).2 = false.
Proof.
  intros s s1.
  destruct (C10_failed_wait_never_resolves s s1 ["/bin/false"] (Some 1%Z)
              "/bin/false" EmptyString) as (_ & Hr & Hn).
  - vm_compute. reflexivity.
  - split; [vm_compute; reflexivity|]. split; [exact Hr|].
    split; [apply (Hn 2) | apply (Hn 3)].
Defined.

(** ** Pipelines *)

Section PipelineFacts.
Variable Path : Type.
Variable path_str : Path → string.
Variable pathsep : ascii.
Variable os_spawn : table → PopenArgs → option Fate.

Local Notation "'popen''" := (popen Path path_str pathsep os_spawn).
Local Notation "'run''" := (run Path path_str pathsep os_spawn).

(** [Pipeline.popen] when it returns. *)
Lemma Pipeline_popen_Ok srccmd dstcmd i o e kw w w1 h :
  popen' (Pipeline srccmd dstcmd) i o e kw w = (w1, Ok h) →
  ∃ ws hs wd ps pd,
    popen' srccmd i PIPE PIPE kw w = (ws, Ok hs)
    ∧ popen' dstcmd (EPipe hs) o e kw ws = (wd, Ok h)
    ∧ hs < h
    ∧ w_procs _ ws !! hs = Some ps ∧ fresh ps
    ∧ w_procs _ wd !! h = Some pd ∧ fresh pd
    ∧ w_procs _ w1 !! hs = Some (close_stderr (close_stdout ps))
    ∧ stdout ps = PipeOpen ∧ stderr ps = PipeOpen
    ∧ w_procs _ w1 !! h = Some (set_srcproc hs pd).
Proof.
  intros H.
  apply Pipeline_popen_inv in H as [_ H]; [|intros; by eapply popen_spec..].
  destruct H as (ws & hs & wd & t1 & ps & t2 & pd & Hs & Hd & Hws & Hhs & Hfps & Ho & He
                 & Hwd & Hhd & Hfpd & _ & Hw1).
  exists ws, hs, wd, ps, pd.
  split; [done|]. split; [done|]. split.
  { rewrite Hhd, Hhs, Hws, !length_app. simpl. lia. }
  split. { rewrite Hws. by apply list_lookup_middle. }
  split; [done|].
  split. { rewrite Hwd. by apply list_lookup_middle. }
  split; [done|].
  split. { rewrite Hw1. do 2 apply lookup_app_l_Some. by apply list_lookup_middle. }
  split; [done|]. split; [done|].
  rewrite Hw1. apply list_lookup_middle.
  rewrite Hhd, Hws, !length_app. simpl. lia.
Qed.

End PipelineFacts.

(** C1, as the code has it: the handle a pipeline returns from [popen] is
    the one the destination's [popen] returned, and its [srcproc] is the
    handle the source's [popen] returned.  The parent has closed its ends of
    the source's output and error pipes, and nobody has waited for the
    source.  [run], and [wait] on a future made from the handle, collect the
    destination only: they leave the object of the source exactly as
    [popen] left it, with no exit code on it and its pipes closed. *)
Theorem C1_pipeline_collects_destination_only
    (Path : Type) (path_str : Path → string) (pathsep : ascii)
    (os_spawn : table → PopenArgs → option Fate)
    srccmd dstcmd rc i o e kw (w w1 : World Path) h :
  popen Path path_str pathsep os_spawn (Pipeline srccmd dstcmd) i o e kw w = (w1, Ok h) →
  ∃ ws hs wd ps pd,
    popen Path path_str pathsep os_spawn srccmd i PIPE PIPE kw w = (ws, Ok hs)
    ∧ popen Path path_str pathsep os_spawn dstcmd (EPipe hs) o e kw ws = (wd, Ok h)
    ∧ hs ≠ h
    ∧ w_procs _ w1 !! h = Some pd ∧ srcproc pd = Some hs
    ∧ w_procs _ w1 !! hs = Some ps
    ∧ returncode ps = None ∧ communicated ps = 0
    ∧ stdout ps = PipeClosed ∧ stderr ps = PipeClosed
    ∧ (∀ w2 r,
         run Path path_str pathsep os_spawn (Pipeline srccmd dstcmd) rc i o e kw w = (w2, r) →
         w_procs _ w2 !! hs = Some ps
         ∧ ∃ pd', w_procs _ w2 !! h = Some pd' ∧ drained pd' ∧ srcproc pd' = Some hs)
    ∧ (∀ s2 r,
         wait {| fut := Future_init h rc; fut_procs := w_procs _ w1 |} = (s2, r) →
         fut_procs s2 !! hs = Some ps
         ∧ ∃ pd', fut_procs s2 !! h = Some pd' ∧ drained pd' ∧ srcproc pd' = Some hs).
Proof.
  intros Hpopen.
  destruct (Pipeline_popen_Ok _ _ _ _ _ _ _ _ _ _ _ _ _ Hpopen)
    as (ws & hs & wd & ps & pd & Hs & Hd & Hlt & _ & Hfps & _ & Hfpd & Hps & Ho & He & Hpd).
  exists ws, hs, wd, (close_stderr (close_stdout ps)), (set_srcproc hs pd).
  destruct Hfps as (_ & _ & _ & Hr & Hc & _).
  assert (fresh (set_srcproc hs pd)) as Hfresh by (by destruct Hfpd as (?&?&?&?&?&?)).
  pose proof (_run_first _ _ _ rc Hpd (fresh_not_stale _ Hfresh)) as Hrun.
  simpl in Hrun.
  split; [done|]. split; [done|]. split; [lia|].
  split; [done|]. split; [done|]. split; [done|].
  split; [done|]. split; [done|].
  split; [by simpl; rewrite Ho|]. split; [by simpl; rewrite He|].
  split.
  - intros w2 r. unfold run, bind. rewrite Hpopen. unfold in_procs, zoom.
    rewrite Hrun. intros [= <- _]. simpl.
    split; [by rewrite upd_lookup_ne by lia|].
    exists (collected (set_srcproc hs pd)).
    split; [by apply upd_lookup_eq|]. split; [apply collected_drained|done].
  - intros s2 r. rewrite wait_pending by done. simpl. rewrite Hrun.
    destruct (negb (is_None rc) && _); intros [= <- _]; simpl;
      (split; [by rewrite upd_lookup_ne by lia|]);
      exists (collected (set_srcproc hs pd));
      (split; [by apply upd_lookup_eq|]); (split; [apply collected_drained|done]).
Qed.

Lemma C1_pipeline_collects_destination_only_witness :
  let u := Pipeline Sample.false_ Sample.grep_a in
  let w2 := (Sample.sample_run u (VInt 0) PIPE PIPE PIPE no_kwargs Sample.sample_world).1 in
  ∃ ps pd', w_procs _ w2 !! 0 = Some ps
            ∧ returncode ps = None ∧ stdout ps = PipeClosed ∧ stderr ps = PipeClosed
            ∧ w_procs _ w2 !! 1 = Some pd' ∧ drained pd' ∧ srcproc pd' = Some 0.
Proof.
  intros u w2.
  pose (w1 := (Sample.sample_popen u PIPE PIPE PIPE no_kwargs Sample.sample_world).1).
  destruct (C1_pipeline_collects_destination_only Sample.Path Sample.path_str
              Sample.pathsep Sample.sample_spawn Sample.false_ Sample.grep_a (VInt 0)
              PIPE PIPE PIPE no_kwargs Sample.sample_world w1 1)
    as (ws & hs & wd & ps & pd & Hs & _ & _ & _ & _ & _ & Hr & _ & Ho & He & Hrun & _).
  - vm_compute. reflexivity.
  - assert (hs = 0) as -> by (vm_compute in Hs; by inversion Hs).
    destruct (Hrun w2 (Sample.sample_run u (VInt 0) PIPE PIPE PIPE no_kwargs
                         Sample.sample_world).2) as (Hps & pd' & Hpd' & Hd & Hsrc).
    + apply surjective_pairing.
    + exists ps, pd'. repeat split; try done; apply Hd.
Defined.

(** C1, as the claim has it, fails: the pipeline [/bin/false | /bin/grep a]
    runs to the end under the default policy, since its destination exits
    with 0; the source has exited with 1, but after [run] has returned the
    handle recorded in [srcproc] carries no exit code: the source has not
    been waited for. *)
Lemma C1_source_not_collected_counterexample :
  let '(w2, r) := Sample.sample_run (Pipeline Sample.false_ Sample.grep_a) (VInt 0)
                    PIPE PIPE PIPE no_kwargs Sample.sample_world in
  r = Ok (Some 0%Z, "/bin/grep", EmptyString)
  ∧ ¬ source_collected (w_procs _ w2) 1
  ∧ ∃ pd ps, w_procs _ w2 !! 1 = Some pd ∧ srcproc pd = Some 0
             ∧ w_procs _ w2 !! 0 = Some ps
             ∧ f_exit (p_fate ps) = 1%Z ∧ returncode ps = None.
Proof.
  vm_compute. split; [reflexivity|]. split.
  - intros (pd & hs & ps & Hpd & Hsrc & Hps & Hrc).
    inversion Hpd; subst pd. simpl in Hsrc. inversion Hsrc; subst hs.
    inversion Hps; subst ps. simpl in Hrc. discriminate.
  - eexists _, _. repeat split.
Qed.

(** ** Redirections *)

Lemma ne_PIPE_spec e : ne_PIPE e = true ↔ e ≠ PIPE.
Proof.
  destruct e as [n| |f|h]; simpl; try (split; [discriminate|done]).
  rewrite negb_true_iff, Z.eqb_neq. unfold PIPE. split; [congruence|].
  intros H ->. by apply H.
Qed.

Lemma resolve_one x d : resolve [x] d = if ne_PIPE x then x else d.
Proof.
  simpl. destruct (decide (x = PIPE)) as [->|H]; [done|].
  apply ne_PIPE_spec in H. by rewrite H.
Qed.

Lemma resolve_snoc ws x d :
  resolve (ws ++ [x]) d = resolve ws (if ne_PIPE x then x else d).
Proof.
  induction ws as [|y ws IH].
  - apply resolve_one.
  - simpl. by rewrite IH.
Qed.

Lemma wrap_snoc leaf ws x :
  wrap leaf (ws ++ [x]) = Redirection (wrap leaf ws) x.1.1 x.1.2 x.2.
Proof. unfold wrap. by rewrite fold_left_app. Qed.

(** C6: a redirection wrapper hands to the unit it wraps, for each of the
    three streams, its own endpoint when that is not [PIPE] and the one its
    caller gave when it is.  So when a command, bound or not, is wrapped in
    any number of redirections and spawned, each stream of the process is
    the innermost endpoint that is not [PIPE], and the caller's choice when
    every wrapper holds [PIPE] for that stream. *)
Theorem C6_redirection_endpoints
    (Path : Type) (path_str : Path → string) (pathsep : ascii)
    (os_spawn : table → PopenArgs → option Fate) :
  (∀ u wi wo we di do de kw,
     popen Path path_str pathsep os_spawn (Redirection u wi wo we) di do de kw
     = popen Path path_str pathsep os_spawn u
         (resolve [wi] di) (resolve [wo] do) (resolve [we] de) kw)
  ∧ (∀ leaf ws di do de kw (w w' : World Path) h,
       is_leaf leaf →
       popen Path path_str pathsep os_spawn (wrap leaf ws) di do de kw w = (w', Ok h) →
       ∃ p, w_procs _ w' !! h = Some p
            ∧ a_stdin (p_args p) = resolve (map (λ x, x.1.1) ws) di
            ∧ a_stdout (p_args p) = resolve (map (λ x, x.1.2) ws) do
            ∧ a_stderr (p_args p) = resolve (map (λ x, x.2) ws) de).
Proof.
  split.
  - intros. by rewrite !resolve_one.
  - intros leaf ws. induction ws as [|x ws IH] using rev_ind;
      intros di do de kw w w' h Hleaf Hpopen.
    + assert (∃ exe args, popen Path path_str pathsep os_spawn (wrap leaf []) di do de kw
                          = Command_popen Path path_str pathsep os_spawn exe args di do de kw)
        as (exe & args & Heq) by (destruct leaf; try done; by eexists _, _).
      rewrite Heq in Hpopen.
      apply Command_popen_spec in Hpopen as [_ (a & f & _ & _ & Hi & Ho & He & _ & -> & ->)].
      eexists. split; [by apply list_lookup_middle|]. by simpl.
    + rewrite wrap_snoc in Hpopen. simpl in Hpopen.
      apply IH in Hpopen as (p & Hp & Hi & Ho & He); [|done].
      exists p. rewrite !map_app. simpl. by rewrite !resolve_snoc.
Qed.

Lemma C6_redirection_endpoints_witness :
  let out := mk_file "out.txt" ModeW in
  let log := mk_file "log.txt" ModeW in
  let u := wrap Sample.grep_a [(PIPE, EFile out, PIPE); (ENone, EFile log, PIPE)] in
  let w' := (Sample.sample_popen u PIPE PIPE (EInt 2) no_kwargs Sample.sample_world).1 in
  ∃ p, w_procs _ w' !! 0 = Some p
       ∧ a_stdin (p_args p) = ENone
       ∧ a_stdout (p_args p) = EFile out
       ∧ a_stderr (p_args p) = EInt 2.
Proof.
  intros out log u w'.
  destruct (C6_redirection_endpoints Sample.Path Sample.path_str Sample.pathsep
              Sample.sample_spawn) as [_ H].
  destruct (H Sample.grep_a [(PIPE, EFile out, PIPE); (ENone, EFile log, PIPE)]
              PIPE PIPE (EInt 2) no_kwargs Sample.sample_world w' 0)
    as (p & Hp & Hi & Ho & He).
  - exact I.
  - vm_compute. reflexivity.
  - exists p. split; [exact Hp|]. split; [exact Hi|]. split; [exact Ho | exact He].
Defined.

Lemma open_r_fail name o :
  missing_or_unreadable o name → open name ModeR o = (o, Raise (IOError name)).
Proof.
  unfold missing_or_unreadable, open.
  destruct (os_files o !! name) as [n|]; [|done]. by intros ->.
Qed.

Lemma open_r_ok name o n :
  os_files o !! name = Some n → n_readable n = true →
  open name ModeR o = (o, Ok (mk_file name ModeR)).
Proof. intros Hn Hr. unfold open. by rewrite Hn, Hr. Qed.

Lemma open_w_ok name o :
  can_write o name →
  ∃ o', open name ModeW o = (o', Ok (mk_file name ModeW)) ∧ truncated name o o'.
Proof.
  unfold can_write, open, truncated.
  destruct (os_files o !! name) as [n|] eqn:Hn.
  - intros ->. eexists. split; [done|]. simpl. repeat split.
    + eexists. by rewrite lookup_insert_eq.
    + intros k Hk. by rewrite lookup_insert_ne.
  - intros Hc. rewrite bool_decide_eq_false_2 by done.
    eexists. split; [done|]. simpl. repeat split.
    + eexists. by rewrite lookup_insert_eq.
    + intros k Hk. by rewrite lookup_insert_ne.
Qed.

Lemma open_w_fail name o :
  ¬ can_write o name → open name ModeW o = (o, Raise (IOError name)).
Proof.
  unfold can_write, open.
  destruct (os_files o !! name) as [n|].
  - by destruct (n_writable n).
  - intros H. by rewrite bool_decide_eq_true_2 by (by apply dec_stable).
Qed.

(** C8: building a redirection whose input is given as a file name raises
    the error of [open] and builds nothing when that file does not exist or
    cannot be read, and nothing is opened for output then.  A file name
    given for the output or for the error stream is opened for writing: the
    file is created or cut to the empty file, and the wrapper holds the file
    opened for writing; when it cannot be written or created the same error
    is raised. *)
Theorem C8_redirection_named_files :
  (∀ cmd name out err o,
     missing_or_unreadable o name →
     Redirection_init cmd (AStr name) out err o = (o, Raise (IOError name)))
  ∧ (∀ cmd i name e o,
       can_write o name →
       ∃ o', Redirection_init cmd (AEnd i) (AStr name) (AEnd e) o
             = (o', Ok (Redirection cmd i (EFile (mk_file name ModeW)) e))
             ∧ truncated name o o')
  ∧ (∀ cmd i out name o,
       can_write o name →
       ∃ o', Redirection_init cmd (AEnd i) (AEnd out) (AStr name) o
             = (o', Ok (Redirection cmd i out (EFile (mk_file name ModeW))))
             ∧ truncated name o o')
  ∧ (∀ cmd i name e o,
       ¬ can_write o name →
       Redirection_init cmd (AEnd i) (AStr name) e o = (o, Raise (IOError name))).
Proof.
  repeat split.
  - intros cmd name out err o H. unfold Redirection_init, open_if_str, bind.
    by rewrite (open_r_fail _ _ H).
  - intros cmd i name e o H. destruct (open_w_ok _ _ H) as (o' & Ho & Ht).
    exists o'. split; [|done].
    unfold Redirection_init, open_if_str, bind, ret. by rewrite Ho.
  - intros cmd i out name o H. destruct (open_w_ok _ _ H) as (o' & Ho & Ht).
    exists o'. split; [|done].
    unfold Redirection_init, open_if_str, bind, ret. by rewrite Ho.
  - intros cmd i name e o H. unfold Redirection_init, open_if_str, bind, ret.
    by rewrite (open_w_fail _ _ H).
Qed.

Lemma C8_redirection_named_files_witness :
  Redirection_init Sample.ls (AStr "nofile.txt") (AStr "out.txt") (AEnd PIPE) Sample.sample_os
  = (Sample.sample_os, Raise (IOError "nofile.txt"))
  ∧ Redirection_init Sample.ls (AStr "secret.txt") (AEnd PIPE) (AEnd PIPE) Sample.sample_os
    = (Sample.sample_os, Raise (IOError "secret.txt"))
  ∧ (∃ o', Redirection_init Sample.ls (AEnd PIPE) (AStr "in.txt") (AEnd PIPE) Sample.sample_os
           = (o', Ok (Redirection Sample.ls PIPE (EFile (mk_file "in.txt" ModeW)) PIPE))
           ∧ truncated "in.txt" Sample.sample_os o')
  ∧ (∃ o', Redirection_init Sample.ls (AEnd PIPE) (AEnd PIPE) (AStr "new.txt") Sample.sample_os
           = (o', Ok (Redirection Sample.ls PIPE PIPE (EFile (mk_file "new.txt" ModeW))))
           ∧ truncated "new.txt" Sample.sample_os o')
  ∧ Redirection_init Sample.ls (AEnd PIPE) (AStr "/nodir/out.txt") (AEnd PIPE) Sample.sample_os
    = (Sample.sample_os, Raise (IOError "/nodir/out.txt")).
Proof.
  destruct C8_redirection_named_files as (Hin & Hout & Herr & Hfail).
  split; [apply Hin; vm_compute; exact I|].
  split; [apply Hin; vm_compute; reflexivity|].
  split; [apply Hout; vm_compute; reflexivity|].
  split; [apply Herr; vm_compute; discriminate|].
  apply Hfail. vm_compute. intros H. apply H. reflexivity.
Defined.

(** * Further properties of the module *)

(** ** The environment stack: variables, scopes, [home] *)

Section EnvMore.
Variable Path : Type.
Variable mkPath : string → Path.
Variable mkPath2 : string → string → Path.
Variable path_str : Path → string.
Variable pathsep : ascii.

Local Notation "'_update_path''" := (_update_path Path mkPath pathsep).
Local Notation "'getdict''" := (getdict Path path_str pathsep).
Local Notation "'update''" := (update Path mkPath pathsep).
Local Notation "'setitem''" := (__setitem__ Path mkPath pathsep).
Local Notation "'with_env''" := (with_env Path mkPath pathsep).
Local Notation "'set_home''" := (set_home Path mkPath pathsep).
Local Notation "'home''" := (home Path mkPath mkPath2).
Local Notation "'Env''" := (mk_Env Path).

Lemma getitem_snoc name st fr p :
  __getitem__ Path name (Env' (st ++ [fr]) p)
  = (Env' (st ++ [fr]) p,
     match fr !! name with Some v => Ok v | None => Raise (KeyError name) end).
Proof.
  unfold __getitem__, bind. rewrite env_top_snoc. by destruct (fr !! name).
Qed.

Lemma contains_snoc name st fr p :
  __contains__ Path name (Env' (st ++ [fr]) p)
  = (Env' (st ++ [fr]) p, Ok (bool_decide (is_Some (fr !! name)))).
Proof. unfold __contains__, bind. by rewrite env_top_snoc. Qed.

Lemma get_snoc name dflt st fr p :
  get Path name dflt (Env' (st ++ [fr]) p)
  = (Env' (st ++ [fr]) p,
     Ok (match fr !! name with Some v => Some v | None => dflt end)).
Proof. unfold get, bind. by rewrite env_top_snoc. Qed.

Lemma setitem_snoc name value st fr p :
  setitem' name value (Env' (st ++ [fr]) p)
  = (Env' (st ++ [<[name := value]> fr])
       (if bool_decide (name = "PATH") then map mkPath (split pathsep value) else p),
     Ok tt).
Proof.
  unfold __setitem__, bind. rewrite env_change_top_snoc.
  case_bool_decide as Hn; [|done]. subst name.
  by rewrite _update_path_snoc with (v := value) by apply lookup_insert_eq.
Qed.

Lemma delitem_snoc name st fr p :
  __delitem__ Path name (Env' (st ++ [fr]) p)
  = match fr !! name with
    | Some _ => (Env' (st ++ [delete name fr]) p, Ok tt)
    | None => (Env' (st ++ [fr]) p, Raise (KeyError name))
    end.
Proof.
  unfold __delitem__, bind. rewrite env_top_snoc.
  destruct (fr !! name); [|done]. by rewrite env_change_top_snoc.
Qed.

Lemma update_snoc kwargs st fr p :
  update' kwargs (Env' (st ++ [fr]) p)
  = match (kwargs ∪ fr) !! "PATH" with
    | Some v => (Env' (st ++ [kwargs ∪ fr]) (map mkPath (split pathsep v)), Ok tt)
    | None => (Env' (st ++ [kwargs ∪ fr]) p, Raise (KeyError "PATH"))
    end.
Proof.
  unfold update, bind. rewrite env_change_top_snoc.
  destruct ((kwargs ∪ fr) !! "PATH") as [v|] eqn:Hv.
  - by rewrite _update_path_snoc with (v := v).
  - by rewrite _update_path_missing.
Qed.

(** Assigning a variable and reading it back: the assignment replaces that
    one variable in the frame on top and nothing else, the derived list is
    computed anew exactly when the variable is [PATH], and the variable then
    reads as the value assigned while every other variable reads as it did
    before. *)
Theorem setitem_then_getitem name value st fr p :
  let e' := (setitem' name value (Env' (st ++ [fr]) p)).1 in
  setitem' name value (Env' (st ++ [fr]) p) = (e', Ok tt)
  ∧ _envstack _ e' = st ++ [<[name := value]> fr]
  ∧ path _ e' = (if bool_decide (name = "PATH")
                 then map mkPath (split pathsep value) else p)
  ∧ __getitem__ Path name e' = (e', Ok value)
  ∧ (∀ other, other ≠ name →
       (__getitem__ Path other e').2 = (__getitem__ Path other (Env' (st ++ [fr]) p)).2).
Proof.
  intros e'. subst e'. rewrite setitem_snoc. simpl.
  repeat split.
  - by rewrite getitem_snoc, lookup_insert_eq.
  - intros other Hne. rewrite !getitem_snoc. simpl. by rewrite lookup_insert_ne.
Qed.

(** When the derived list is the one of the frame's [PATH] and [Path] gives
    back the strings it is made from, [getdict] changes nothing: the
    snapshot is the frame on top as it stands. *)
Theorem getdict_in_step st fr v :
  fr !! "PATH" = Some v →
  (∀ s, s ∈ split pathsep v → path_str (mkPath s) = s) →
  getdict' (Env' (st ++ [fr]) (map mkPath (split pathsep v)))
  = (Env' (st ++ [fr]) (map mkPath (split pathsep v)), Ok fr).
Proof.
  intros Hv Hrt. rewrite getdict_snoc.
  assert (map path_str (map mkPath (split pathsep v)) = split pathsep v) as ->.
  { induction (split pathsep v) as [|s l IH]; [done|]. simpl.
    rewrite Hrt by apply list_elem_of_here. f_equal. apply IH.
    intros s' Hs'. apply Hrt. by apply list_elem_of_further. }
  by rewrite join_split, insert_id.
Qed.

(** Deleting a variable: a missing one raises [KeyError] and changes
    nothing.  Deleting [PATH] takes it out of the frame but leaves the
    derived list as it was, and the next [getdict] puts a [PATH] back, made
    from that list. *)
Theorem delitem_PATH_comes_back st fr p :
  (∀ name, fr !! name = None →
     __delitem__ Path name (Env' (st ++ [fr]) p)
     = (Env' (st ++ [fr]) p, Raise (KeyError name)))
  ∧ (∀ v, fr !! "PATH" = Some v →
       let e1 := (__delitem__ Path "PATH" (Env' (st ++ [fr]) p)).1 in
       let written := join (String pathsep EmptyString) (map path_str p) in
       e1 = Env' (st ++ [delete "PATH" fr]) p
       ∧ __contains__ Path "PATH" e1 = (e1, Ok false)
       ∧ (getdict' e1).2 = Ok (<["PATH" := written]> fr)
       ∧ __contains__ Path "PATH" (getdict' e1).1 = ((getdict' e1).1, Ok true)).
Proof.
  split.
  - intros name Hn. by rewrite delitem_snoc, Hn.
  - intros v Hv e1 written. subst e1. rewrite delitem_snoc, Hv. simpl.
    split; [done|]. rewrite contains_snoc, getdict_snoc. simpl.
    rewrite contains_snoc, insert_delete_eq.
    split; [|split; [done|]].
    + f_equal. f_equal. apply bool_decide_eq_false_2.
      rewrite lookup_delete_eq. by intros [? ?].
    + f_equal. f_equal. apply bool_decide_eq_true_2.
      rewrite lookup_insert_eq. by eexists.
Qed.

(** Entering a scope when neither the frame on top nor the overrides hold a
    [PATH]: [KeyError] is raised ahead of the [try], the body does not run,
    and the copy that was pushed stays on the stack. *)
Theorem with_env_without_PATH_leaks {A} kwargs (body : M (_Env Path) A) st fr p :
  (kwargs ∪ fr) !! "PATH" = None →
  with_env' kwargs body (Env' (st ++ [fr]) p)
  = (Env' ((st ++ [fr]) ++ [kwargs ∪ fr]) p, Raise (KeyError "PATH")).
Proof.
  intros Hv. unfold with_env, scoped, env_enter, bind, modify.
  rewrite env_top_snoc. simpl. unfold set_envstack. simpl.
  by rewrite update_snoc, Hv.
Qed.

(** The operations that keep a [PATH] on top of a stack of unchanged
    depth. *)
Lemma keeps_PATH_ret {A} (a : A) : keeps_PATH Path (ret a).
Proof. intros st fr p v e' r Hv [= <- <-]. by eexists _, _, _. Qed.

Lemma keeps_PATH_raise {A} x : keeps_PATH Path (@raise _ A x).
Proof. intros st fr p v e' r Hv [= <- <-]. by eexists _, _, _. Qed.

Lemma keeps_PATH_bind {A B} (m : M (_Env Path) A) (k : A → M (_Env Path) B) :
  keeps_PATH Path m → (∀ a, keeps_PATH Path (k a)) → keeps_PATH Path (bind m k).
Proof.
  intros Hm Hk st fr p v e' r Hv. unfold bind.
  destruct (m _) as [e1 [a|x]] eqn:Em.
  - destruct (Hm _ _ _ _ _ _ Hv Em) as (fr1 & v1 & p1 & -> & Hv1).
    intros Hka. by apply (Hk a _ _ _ _ _ _ Hv1 Hka).
  - intros [= <- <-]. by apply (Hm _ _ _ _ _ _ Hv Em).
Qed.

Lemma keeps_PATH_getitem name : keeps_PATH Path (__getitem__ Path name).
Proof.
  intros st fr p v e' r Hv. rewrite getitem_snoc. intros [= <- <-]. by eexists _, _, _.
Qed.

Lemma keeps_PATH_setitem name value : keeps_PATH Path (setitem' name value).
Proof.
  intros st fr p v e' r Hv. rewrite setitem_snoc. intros [= <- <-].
  destruct (decide (name = "PATH")) as [->|Hne].
  - eexists _, value, _. split; [done|]. apply lookup_insert_eq.
  - eexists _, v, _. split; [done|]. by rewrite lookup_insert_ne.
Qed.

Lemma keeps_PATH_delitem name : name ≠ "PATH" → keeps_PATH Path (__delitem__ Path name).
Proof.
  intros Hne st fr p v e' r Hv. rewrite delitem_snoc.
  destruct (fr !! name); intros [= <- <-]; eexists _, v, _; (split; [done|]).
  - by rewrite lookup_delete_ne.
  - exact Hv.
Qed.

Lemma keeps_PATH_update kwargs : keeps_PATH Path (update' kwargs).
Proof.
  intros st fr p v e' r Hv. rewrite update_snoc.
  destruct ((kwargs ∪ fr) !! "PATH") as [v'|] eqn:Hv'.
  - intros [= <- <-]. by eexists _, _, _.
  - apply lookup_union_None in Hv' as [_ Hv']. congruence.
Qed.

Lemma keeps_PATH_getdict : keeps_PATH Path getdict'.
Proof.
  intros st fr p v e' r Hv. rewrite getdict_snoc. intros [= <- <-].
  eexists _, _, _. split; [done|]. apply lookup_insert_eq.
Qed.

Lemma keeps_PATH_path_append q : keeps_PATH Path (path_append Path q).
Proof. intros st fr p v e' r Hv [= <- <-]. by eexists _, _, _. Qed.

Lemma with_env_keeps_frames {A} kwargs (body : M (_Env Path) A) st fr p v e' r :
  keeps_PATH Path body →
  fr !! "PATH" = Some v →
  with_env' kwargs body (Env' (st ++ [fr]) p) = (e', r) →
  _envstack _ e' = st ++ [fr]
  ∧ r = (body (env_enter Path mkPath pathsep kwargs (Env' (st ++ [fr]) p)).1).2.
Proof.
  intros Hbody Hv.
  assert (∃ v1, (kwargs ∪ fr) !! "PATH" = Some v1) as [v1 Hv1].
  { destruct (kwargs !! "PATH") as [k|] eqn:Hk.
    - exists k. by apply lookup_union_Some_l.
    - exists v. rewrite lookup_union_r by done. exact Hv. }
  rewrite env_enter_snoc with (v := v1) by done. simpl.
  destruct (body (Env' ((st ++ [fr]) ++ [kwargs ∪ fr]) (map mkPath (split pathsep v1))))
    as [e2 r2] eqn:Eb.
  destruct (Hbody _ _ _ _ _ _ Hv1 Eb) as (fr2 & v2 & p2 & -> & Hv2).
  rewrite (with_env_frames _ _ _ _ _ _ _ _ _ _ _ _ _ Hv1 Eb Hv2).
  by intros [= <- <-].
Qed.

(** A scope around a body that keeps a [PATH] on top gives back the stack
    of frames it was entered with, whatever the overrides and whether the
    body returns or raises; what the scope returns or raises is what the
    body did. *)
Theorem with_env_restores_stack {A} kwargs (body : M (_Env Path) A) st fr p v e' r :
  keeps_PATH Path body →
  fr !! "PATH" = Some v →
  with_env' kwargs body (Env' (st ++ [fr]) p) = (e', r) →
  _envstack _ e' = st ++ [fr]
  ∧ r = (body (env_enter Path mkPath pathsep kwargs (Env' (st ++ [fr]) p)).1).2.
Proof. apply with_env_keeps_frames. Qed.


End EnvMore.

Section EnvHomeFacts.
Variable Path : Type.
Variable mkPath : string → Path.
Variable mkPath2 : string → string → Path.
Variable pathsep : ascii.

Local Notation "'set_home''" := (set_home Path mkPath pathsep).
Local Notation "'home''" := (home Path mkPath mkPath2).
Local Notation "'Env''" := (mk_Env Path).

(** The variable the setter of [home] writes: the first of [HOME],
    [USERPROFILE] and [HOMEPATH] that the frame holds, and [HOME] when it
    holds none of them. *)
Lemma set_home_snoc s st fr p :
  set_home' s (Env' (st ++ [fr]) p)
  = (Env' (st ++ [<[(if bool_decide (is_Some (fr !! "HOME")) then "HOME"
                      else if bool_decide (is_Some (fr !! "USERPROFILE")) then "USERPROFILE"
                      else if bool_decide (is_Some (fr !! "HOMEPATH")) then "HOMEPATH"
                      else "HOME") := s]> fr]) p, Ok tt).
Proof.
  unfold set_home, bind. rewrite contains_snoc.
  destruct (bool_decide (is_Some (fr !! "HOME"))); [by rewrite setitem_snoc|].
  rewrite contains_snoc.
  destruct (bool_decide (is_Some (fr !! "USERPROFILE"))); [by rewrite setitem_snoc|].
  rewrite contains_snoc.
  destruct (bool_decide (is_Some (fr !! "HOMEPATH"))); by rewrite setitem_snoc.
Qed.

Lemma home_snoc st fr p :
  home' (Env' (st ++ [fr]) p)
  = (Env' (st ++ [fr]) p,
     Ok (match fr !! "HOME" with
         | Some v => Some (mkPath v)
         | None =>
             match fr !! "USERPROFILE" with
             | Some v => Some (mkPath v)
             | None =>
                 match fr !! "HOMEPATH" with
                 | Some v => Some (mkPath2 (default EmptyString (fr !! "HOMEDRIVE")) v)
                 | None => None
                 end
             end
         end)).
Proof.
  unfold home, bind. rewrite contains_snoc.
  destruct (fr !! "HOME") as [v|] eqn:Hh.
  { rewrite bool_decide_eq_true_2 by (by eexists). by rewrite getitem_snoc, Hh. }
  rewrite bool_decide_eq_false_2 by (by intros [? ?]).
  rewrite contains_snoc.
  destruct (fr !! "USERPROFILE") as [v|] eqn:Hu.
  { rewrite bool_decide_eq_true_2 by (by eexists). by rewrite getitem_snoc, Hu. }
  rewrite bool_decide_eq_false_2 by (by intros [? ?]).
  rewrite contains_snoc.
  destruct (fr !! "HOMEPATH") as [v|] eqn:Hp.
  { rewrite bool_decide_eq_true_2 by (by eexists).
    rewrite get_snoc, getitem_snoc, Hp. simpl. by destruct (fr !! "HOMEDRIVE"). }
  by rewrite bool_decide_eq_false_2 by (by intros [? ?]).
Qed.

(** Setting [home] and reading it back.  The setter writes the string into
    one variable of the frame on top, the first of [HOME], [USERPROFILE] and
    [HOMEPATH] that the frame holds and [HOME] when it holds none of them,
    and changes nothing else: not the other variables, not the frames
    below, not the derived list.  The getter then gives the path made of the
    string that was set, except when the frame holds [HOMEPATH] and neither
    [HOME] nor [USERPROFILE]: then it gives the path made of [HOMEDRIVE]
    (the empty string when absent) and that string. *)
Theorem set_home_then_home s st fr p :
  let e1 := (set_home' s (Env' (st ++ [fr]) p)).1 in
  let written :=
    if bool_decide (is_Some (fr !! "HOME")) then "HOME"
    else if bool_decide (is_Some (fr !! "USERPROFILE")) then "USERPROFILE"
    else if bool_decide (is_Some (fr !! "HOMEPATH")) then "HOMEPATH"
    else "HOME" in
  (set_home' s (Env' (st ++ [fr]) p)).2 = Ok tt
  ∧ path _ e1 = p
  ∧ _envstack _ e1 = st ++ [<[written := s]> fr]
  ∧ (∃ fr1, last (_envstack _ e1) = Some fr1
            ∧ fr1 !! written = Some s
            ∧ ∀ other, other ≠ written → fr1 !! other = fr !! other)
  ∧ home' e1
    = (e1, Ok (Some (if bool_decide (is_Some (fr !! "HOME")
                                     ∨ is_Some (fr !! "USERPROFILE")
                                     ∨ fr !! "HOMEPATH" = None)
                     then mkPath s
                     else mkPath2 (default EmptyString (fr !! "HOMEDRIVE")) s))).
Proof.
  intros e1 written. subst e1. rewrite set_home_snoc. fold written. simpl.
  split; [done|]. split; [done|]. split; [done|]. split.
  { eexists. rewrite last_snoc. split; [done|]. split; [apply lookup_insert_eq|].
    intros other Hne. by rewrite lookup_insert_ne. }
  subst written. rewrite home_snoc. f_equal. f_equal.
  destruct (fr !! "HOME") as [h|] eqn:Hh.
  { rewrite !bool_decide_eq_true_2 by (first [by eexists | left; by eexists]).
    by rewrite lookup_insert_eq. }
  rewrite (bool_decide_eq_false_2 (is_Some None)) by (by intros [? ?]).
  destruct (fr !! "USERPROFILE") as [u|] eqn:Hu.
  { rewrite !bool_decide_eq_true_2 by (first [by eexists | right; left; by eexists]).
    rewrite (lookup_insert_ne _ "USERPROFILE" "HOME") by done. rewrite Hh.
    by rewrite lookup_insert_eq. }
  rewrite (bool_decide_eq_false_2 (is_Some None)) by (by intros [? ?]).
  destruct (fr !! "HOMEPATH") as [hp|] eqn:Hp.
  { rewrite bool_decide_eq_true_2 by (by eexists).
    rewrite bool_decide_eq_false_2.
    2: { intros [[? ?]|[[? ?]|?]]; done. }
    rewrite (lookup_insert_ne _ "HOMEPATH" "HOME") by done.
    rewrite (lookup_insert_ne _ "HOMEPATH" "USERPROFILE") by done.
    rewrite (lookup_insert_ne _ "HOMEPATH" "HOMEDRIVE") by done. rewrite Hh, Hu.
    by rewrite lookup_insert_eq. }
  rewrite (bool_decide_eq_false_2 (is_Some None)) by (by intros [? ?]).
  rewrite bool_decide_eq_true_2 by (by right; right).
  by rewrite lookup_insert_eq.
Qed.

End EnvHomeFacts.

Lemma setitem_then_getitem_example :
  let e' := (__setitem__ Sample.Path Sample.mkPath Sample.pathsep "PATH" "/opt"
               Sample.sample_env).1 in
  path _ e' = ["/opt"] ∧ __getitem__ _ "PATH" e' = (e', Ok "/opt")
  ∧ (__getitem__ _ "HOME" e').2 = Ok "/home".
Proof. vm_compute. repeat split. Qed.

Lemma getdict_in_step_witness :
  getdict Sample.Path Sample.path_str Sample.pathsep Sample.sample_env
  = (Sample.sample_env, Ok {[ "PATH" := "/bin:/usr/bin"; "HOME" := "/home" ]}).
Proof.
  apply (getdict_in_step Sample.Path Sample.mkPath Sample.path_str Sample.pathsep []
           {[ "PATH" := "/bin:/usr/bin"; "HOME" := "/home" ]} "/bin:/usr/bin").
  - reflexivity.
  - intros s _. reflexivity.
Defined.

Lemma with_env_without_PATH_leaks_witness :
  with_env Sample.Path Sample.mkPath Sample.pathsep {[ "FOO" := "17" ]} (ret tt)
    (mk_Env Sample.Path [ {[ "HOME" := "/home" ]} ] [])
  = (mk_Env Sample.Path [ {[ "HOME" := "/home" ]};
                          {[ "FOO" := "17" ]} ∪ {[ "HOME" := "/home" ]} ] [],
     Raise (KeyError "PATH")).
Proof.
  apply (with_env_without_PATH_leaks Sample.Path Sample.mkPath Sample.pathsep
           {[ "FOO" := "17" ]} (ret tt) [] {[ "HOME" := "/home" ]} []).
  vm_compute. reflexivity.
Defined.

Lemma with_env_restores_stack_witness :
  let body := bind (__setitem__ Sample.Path Sample.mkPath Sample.pathsep "PATH" "/opt")
                (λ _, bind (__delitem__ Sample.Path "HOME")
                        (λ _, @raise _ unit ValueError)) in
  let out := with_env Sample.Path Sample.mkPath Sample.pathsep {[ "FOO" := "17" ]} body
               Sample.sample_env in
  _envstack _ out.1 = _envstack _ Sample.sample_env ∧ out.2 = Raise ValueError.
Proof.
  intros body out.
  destruct (with_env_restores_stack Sample.Path Sample.mkPath Sample.pathsep
              {[ "FOO" := "17" ]} body []
              {[ "PATH" := "/bin:/usr/bin"; "HOME" := "/home" ]} ["/bin"; "/usr/bin"]
              "/bin:/usr/bin" out.1 out.2) as [Hst Hr].
  - apply keeps_PATH_bind; [apply keeps_PATH_setitem|]. intros _.
    apply keeps_PATH_bind; [by apply keeps_PATH_delitem|]. intros _.
    apply keeps_PATH_raise.
  - reflexivity.
  - apply surjective_pairing.
  - split; [exact Hst|]. rewrite Hr. vm_compute. reflexivity.
Defined.


(** ** The directory stack: scopes that are entered and left *)

Section WorkdirMore.
Variable Path : Type.
Variable mkPath : string → Path.
Variable path_str : Path → string.

Lemma cwd_exit_fail st d top o :
  dirent_str Path path_str d ∉ os_dirs o →
  cwd_exit Path mkPath path_str (mk_Workdir Path ((st ++ [d]) ++ [top]) o)
  = (mk_Workdir Path (st ++ [d]) o, Raise (OSError (dirent_str Path path_str d))).
Proof.
  intros Hin. unfold cwd_exit, bind, _path. simpl.
  rewrite py_pop_snoc. simpl. rewrite py_top_snoc.
  unfold set_dirstack. simpl. by rewrite chdir_fail.
Qed.

(** A scope on a directory the system accepts, around a body that leaves
    the stack at the depth it found it.  On leaving, the stack is popped.
    When the string of the entry that was on top before the scope names a
    directory, the process is back in that directory, the entry is now the
    [Path] made of it, and the scope ends as the body did, whether it
    returned or raised.  When it names none (it is the [None] a failed push
    left, or the directory is gone), leaving raises [OSError] in place of
    what the body did, and the process stays where the body left it. *)
Theorem with_cwd_returns {A} dir (body : M (_Workdir Path) A) st d o w2 top2 r :
  dirent_str Path path_str dir ∈ os_dirs o →
  body (cwd_enter Path mkPath path_str dir (mk_Workdir Path (st ++ [d]) o)).1 = (w2, r) →
  _dirstack _ w2 = (st ++ [d]) ++ [top2] →
  with_cwd Path mkPath path_str dir body (mk_Workdir Path (st ++ [d]) o)
  = if bool_decide (dirent_str Path path_str d ∈ os_dirs (wd_os _ w2))
    then (mk_Workdir Path (st ++ [DPath Path (mkPath (dirent_str Path path_str d))])
            (set_os_cwd (dirent_str Path path_str d) (wd_os _ w2)), r)
    else (mk_Workdir Path (st ++ [d]) (wd_os _ w2),
          Raise (OSError (dirent_str Path path_str d))).
Proof.
  intros Hdir Hbody Hst. unfold with_cwd, scoped.
  rewrite cwd_enter_ok in Hbody |- * by done. simpl in Hbody. rewrite Hbody.
  destruct w2 as [st2 o2]. simpl in *. subst st2.
  case_bool_decide as Hd.
  - by rewrite cwd_exit_ok.
  - by rewrite cwd_exit_fail.
Qed.

End WorkdirMore.

Lemma with_cwd_returns_witness :
  let w := workdir_init Sample.Path Sample.sample_os in
  let out := with_cwd Sample.Path Sample.mkPath Sample.path_str (DStr _ "/tmp")
               (@raise _ unit ValueError) w in
  let stuck := with_cwd Sample.Path Sample.mkPath Sample.path_str (DStr _ "/tmp")
                 (ret tt) (mk_Workdir _ [DStr _ "/home"; DNone _] Sample.sample_os) in
  os_cwd (wd_os _ out.1) = "/home"
  ∧ _dirstack _ out.1 = [DPath _ "/home"]
  ∧ out.2 = Raise ValueError
  ∧ os_cwd (wd_os _ stuck.1) = "/tmp"
  ∧ _dirstack _ stuck.1 = [DStr _ "/home"; DNone _]
  ∧ stuck.2 = Raise (OSError "None").
Proof.
  intros w out stuck.
  pose proof (with_cwd_returns Sample.Path Sample.mkPath Sample.path_str (DStr _ "/tmp")
                (@raise _ unit ValueError) [] (DStr _ "/home") Sample.sample_os
                (mk_Workdir _ [DStr _ "/home"; DPath _ "/tmp"]
                   (set_os_cwd "/tmp" Sample.sample_os))
                (DPath _ "/tmp") (Raise ValueError)) as H.
  pose proof (with_cwd_returns Sample.Path Sample.mkPath Sample.path_str (DStr _ "/tmp")
                (ret tt) [DStr _ "/home"] (DNone _) Sample.sample_os
                (mk_Workdir _ [DStr _ "/home"; DNone _; DPath _ "/tmp"]
                   (set_os_cwd "/tmp" Sample.sample_os))
                (DPath _ "/tmp") (Ok tt)) as H2.
  assert (out = (mk_Workdir _ [DPath _ "/home"] (set_os_cwd "/home" (set_os_cwd "/tmp" Sample.sample_os)),
                 Raise ValueError)) as ->.
  { subst out w. unfold workdir_init.
    change [DStr Sample.Path (os_cwd Sample.sample_os)]
      with ([] ++ [DStr Sample.Path "/home"]).
    rewrite H; [reflexivity| | |]; vm_compute; reflexivity. }
  assert (stuck = (mk_Workdir _ [DStr _ "/home"; DNone _] (set_os_cwd "/tmp" Sample.sample_os),
                   Raise (OSError "None"))) as ->.
  { subst stuck.
    change [DStr Sample.Path "/home"; DNone Sample.Path]
      with ([DStr Sample.Path "/home"] ++ [DNone Sample.Path]).
    rewrite H2; [reflexivity| | |]; vm_compute; reflexivity. }
  repeat split.
Defined.

(** ** [_make_input] *)

Lemma str_app_cons c s1 s2 : String c s1 +:+ s2 = String c (s1 +:+ s2).
Proof. reflexivity. Qed.

Lemma str_app_nil_r s : s +:+ EmptyString = s.
Proof. induction s as [|c s IH]; [done|]. by rewrite str_app_cons, IH. Qed.

Lemma str_app_assoc s1 s2 s3 : (s1 +:+ s2) +:+ s3 = s1 +:+ (s2 +:+ s3).
Proof. induction s1 as [|c s IH]; [done|]. by rewrite !str_app_cons, IH. Qed.

Lemma str_take_drop n s : str_take n s +:+ str_drop n s = s.
Proof.
  revert s. induction n as [|n IH]; intros [|c s]; try done.
  cbn [str_take str_drop]. by rewrite str_app_cons, IH.
Qed.

Lemma str_drop_length n s : String.length (str_drop n s) = String.length s - n.
Proof.
  revert s. induction n as [|n IH]; intros [|c s]; simpl; auto.
Qed.

Lemma str_take_length n s : String.length (str_take n s) = n `min` String.length s.
Proof.
  revert s. induction n as [|n IH]; intros [|c s]; simpl; auto.
Qed.

Lemma str_length_app s1 s2 :
  String.length (s1 +:+ s2) = String.length s1 + String.length s2.
Proof. induction s1 as [|c s IH]; [done|]. rewrite str_app_cons. simpl. by rewrite IH. Qed.

(** The loop with enough fuel: everything is written, in pieces of at most
    [CHUNK_SIZE] characters. *)
Lemma _make_input_loop_spec CHUNK_SIZE fuel : ∀ data f w,
  0 < CHUNK_SIZE →
  String.length data < fuel →
  ∃ n, _make_input_loop fuel CHUNK_SIZE data f w
       = Some ({| t_content := t_content f +:+ data;
                  t_pos := t_pos f + String.length data |}, w + n)
       ∧ String.length data ≤ n * CHUNK_SIZE
       ∧ n * CHUNK_SIZE < String.length data + CHUNK_SIZE.
Proof.
  induction fuel as [|fuel IH]; intros data f w Hc Hfuel; [lia|].
  destruct data as [|c data].
  - exists 0. simpl. rewrite str_app_nil_r, !Nat.add_0_r. destruct f.
    split; [done|]. lia.
  - cbn [_make_input_loop].
    destruct (IH (str_drop CHUNK_SIZE (String c data))
                (t_write (str_take CHUNK_SIZE (String c data)) f) (S w) Hc)
      as (n & -> & Hlo & Hhi).
    { rewrite str_drop_length. cbn [String.length] in *. lia. }
    exists (S n). unfold t_write. cbn [t_content t_pos].
    rewrite str_app_assoc, str_take_drop.
    rewrite <- Nat.add_assoc, <- str_length_app, str_take_drop.
    split; [f_equal; f_equal; lia|].
    rewrite str_drop_length in Hlo, Hhi. cbn [String.length] in *.
    destruct (decide (CHUNK_SIZE ≤ S (String.length data))).
    + lia.
    + assert (S (String.length data) - CHUNK_SIZE = 0) as Hz by lia.
      rewrite Hz in Hhi, Hlo. assert (n = 0) by nia. subst n. lia.
Qed.

(** [_make_input] with a positive chunk size ends (the loop runs at most
    once per character), and it gives a file that holds exactly the data,
    set back to its start; the number of calls of [write] is the number of
    chunks of [CHUNK_SIZE] characters the data fills, the last one perhaps
    in part. *)
Theorem _make_input_holds_data fuel data CHUNK_SIZE :
  0 < CHUNK_SIZE →
  String.length data < fuel →
  ∃ n, _make_input fuel data CHUNK_SIZE
       = Some ({| t_content := data; t_pos := 0 |}, n)
       ∧ String.length data ≤ n * CHUNK_SIZE
       ∧ n * CHUNK_SIZE < String.length data + CHUNK_SIZE.
Proof.
  intros Hc Hfuel.
  destruct (_make_input_loop_spec CHUNK_SIZE fuel data TemporaryFile 0 Hc Hfuel)
    as (n & Hloop & Hn).
  exists n. unfold _make_input. rewrite Hloop. by split.
Qed.

Lemma _make_input_holds_data_witness :
  _make_input 12 "hello world" 4
  = Some ({| t_content := "hello world"; t_pos := 0 |}, 3).
Proof.
  destruct (_make_input_holds_data 12 "hello world" 4) as (n & Hrun & Hlo & Hhi).
  - lia.
  - simpl. lia.
  - rewrite Hrun. simpl in Hlo, Hhi. assert (n = 3) as -> by lia. reflexivity.
Defined.

(** With a chunk size of zero and data to write, the loop never ends: each
    round writes nothing and leaves the data as it is, so no amount of fuel
    is enough. *)
Theorem _make_input_zero_chunk_never_ends fuel data :
  data ≠ EmptyString → _make_input fuel data 0 = None.
Proof.
  intros Hdata. unfold _make_input.
  assert (∀ f w, _make_input_loop fuel 0 data f w = None) as ->; [|done].
  induction fuel as [|fuel IH]; intros f w; [done|].
  destruct data as [|c data]; [done|]. cbn [_make_input_loop str_drop]. apply IH.
Qed.

Lemma _make_input_zero_chunk_never_ends_witness :
  _make_input 1000 "x" 0 = None.
Proof. apply _make_input_zero_chunk_never_ends. discriminate. Defined.

(** ** Looking a program up: [_which] and [which] *)

Section WhichFacts.
Variable Path : Type.
Variable basename : Path → string.
Variable plist : Path → option (list Path).
Variable path_truthy : Path → bool.
Variable WIN32 : bool.
Variable lower : string → string.

Local Notation "'filelist''" := (filelist Path basename).
Local Notation "'_which_in''" := (_which_in Path basename plist WIN32).
Local Notation "'_which''" := (_which Path basename plist WIN32).
Local Notation "'which''" := (which Path basename plist path_truthy WIN32 lower).
Local Notation "'EXTS'" := (_EXTENSIONS WIN32).
Local Notation "'holds''" := (holds Path basename plist WIN32).

Lemma filelist_snoc l n : filelist' (l ++ [n]) = <[basename n := n]> (filelist' l).
Proof. unfold filelist. by rewrite foldl_app. Qed.

Lemma filelist_Some l k n :
  filelist' l !! k = Some n → n ∈ l ∧ basename n = k.
Proof.
  induction l as [|x l IH] using rev_ind; [done|].
  rewrite filelist_snoc. destruct (decide (basename x = k)) as [<-|Hne].
  - rewrite lookup_insert_eq. intros [= <-]. split; [|done].
    apply elem_of_app. right. apply list_elem_of_here.
  - rewrite lookup_insert_ne by done. intros H. apply IH in H as [Hin Hb].
    split; [|done]. apply elem_of_app. by left.
Qed.

Lemma filelist_is_Some l n : n ∈ l → is_Some (filelist' l !! basename n).
Proof.
  induction l as [|x l IH] using rev_ind; [by intros ?%elem_of_nil|].
  rewrite filelist_snoc. intros [Hin|Hin%list_elem_of_singleton]%elem_of_app.
  - destruct (decide (basename x = basename n)) as [->|Hne].
    + rewrite lookup_insert_eq. by eexists.
    + rewrite lookup_insert_ne by done. by apply IH.
  - subst x. rewrite lookup_insert_eq. by eexists.
Qed.

Lemma find_ext_Some fl name exts n :
  find_ext Path fl name exts = Some n →
  ∃ ext, ext ∈ exts ∧ fl !! (name +:+ ext) = Some n.
Proof.
  induction exts as [|ext exts IH]; [done|]. simpl.
  destruct (fl !! (name +:+ ext)) as [m|] eqn:Hm.
  - intros [= <-]. exists ext. split; [apply list_elem_of_here|done].
  - intros H. apply IH in H as (ext' & Hin & Hl). exists ext'.
    split; [by apply list_elem_of_further|done].
Qed.

Lemma find_ext_None fl name exts :
  find_ext Path fl name exts = None → ∀ ext, ext ∈ exts → fl !! (name +:+ ext) = None.
Proof.
  induction exts as [|ext exts IH]; [by intros _ ? ?%elem_of_nil|]. simpl.
  destruct (fl !! (name +:+ ext)) as [m|] eqn:Hm; [done|].
  intros H ext' [->|Hin]%elem_of_cons; [done|]. by apply IH.
Qed.

Lemma empty_ext_in : EmptyString ∈ EXTS.
Proof. unfold _EXTENSIONS. apply list_elem_of_here. Qed.

Lemma find_ext_holds p l name :
  plist p = Some l →
  (is_Some (find_ext Path (filelist' l) name EXTS) ↔ holds' p name).
Proof.
  intros Hl. split.
  - intros [n Hn]. apply find_ext_Some in Hn as (ext & Hext & Hf).
    apply filelist_Some in Hf as [Hin Hb]. by exists l, n, ext.
  - intros (l' & n & ext & Hl' & Hin & Hext & Hb).
    assert (l' = l) as -> by congruence.
    destruct (find_ext Path (filelist' l) name EXTS) as [m|] eqn:Hf; [by eexists|].
    pose proof (find_ext_None _ _ _ Hf ext Hext) as Hnone.
    destruct (filelist_is_Some l n Hin) as [m Hm].
    rewrite Hb in Hm. congruence.
Qed.

(** What [_which] answers is a file that a directory of the search path
    lists under the name asked for, with one of the extensions; and it
    answers with a file whenever some directory of the path holds the
    program: directories that cannot be listed are passed over. *)
Theorem _which_sound_and_complete dirs name :
  (∀ n, _which_in' dirs name = Some n →
        ∃ p l ext, p ∈ dirs ∧ plist p = Some l ∧ n ∈ l
                   ∧ ext ∈ EXTS ∧ basename n = name +:+ ext)
  ∧ ((∃ p, p ∈ dirs ∧ holds' p name) ↔ is_Some (_which_in' dirs name)).
Proof.
  induction dirs as [|p dirs [IHs IHc]].
  - split; [done|]. split; [by intros (p & ?%elem_of_nil & _)|by intros [? ?]].
  - cbn [_which_in]. destruct (plist p) as [l|] eqn:Hl.
    + destruct (find_ext Path (filelist' l) name EXTS) as [m|] eqn:Hf.
      * split.
        -- intros n [= <-].
           apply find_ext_Some in Hf as (ext & Hext & Hf).
           apply filelist_Some in Hf as [Hin Hb].
           exists p, l, ext. split; [apply list_elem_of_here|done].
        -- split; [by eexists|]. intros _. exists p. split; [apply list_elem_of_here|].
           apply (find_ext_holds p l name Hl). rewrite Hf. by eexists.
      * split.
        -- intros n Hn. destruct (IHs n Hn) as (q & l' & ext & Hq & H).
           exists q, l', ext. split; [by apply list_elem_of_further|done].
        -- rewrite <- IHc. split.
           ++ intros (q & [->|Hq]%elem_of_cons & Hh); [|by eauto].
              apply (find_ext_holds _ l name Hl) in Hh. rewrite Hf in Hh. by destruct Hh.
           ++ intros (q & Hq & Hh). exists q. split; [by apply list_elem_of_further|done].
    + split.
      * intros n Hn. destruct (IHs n Hn) as (q & l' & ext & Hq & H).
        exists q, l', ext. split; [by apply list_elem_of_further|done].
      * rewrite <- IHc. split.
        -- intros (q & [->|Hq]%elem_of_cons & Hh); [|by eauto].
           destruct Hh as (l & ? & ? & Hl' & _). congruence.
        -- intros (q & Hq & Hh). exists q. split; [by apply list_elem_of_further|done].
Qed.

(** The first directory of the search path that holds the program wins:
    when no directory ahead of [p] holds it and [p] does, the answer is a
    file of [p], whatever the directories after [p] hold. *)
Theorem _which_first_directory_wins dirs1 p dirs2 name :
  (∀ q, q ∈ dirs1 → ¬ holds' q name) →
  holds' p name →
  ∃ l n ext, _which_in' (dirs1 ++ p :: dirs2) name = Some n
             ∧ plist p = Some l ∧ n ∈ l ∧ ext ∈ EXTS ∧ basename n = name +:+ ext.
Proof.
  intros Hnone Hp. induction dirs1 as [|q dirs1 IH]; cbn [app _which_in].
  - destruct Hp as (l & n0 & ext0 & Hl & Hin & Hext & Hb). rewrite Hl.
    destruct (find_ext Path (filelist' l) name EXTS) as [m|] eqn:Hf.
    + apply find_ext_Some in Hf as (ext & Hext' & Hf).
      apply filelist_Some in Hf as [Hin' Hb']. by exists l, m, ext.
    + pose proof (find_ext_None _ _ _ Hf ext0 Hext) as Hn0.
      destruct (filelist_is_Some l n0 Hin) as [m Hm]. rewrite Hb in Hm. congruence.
  - assert (¬ holds' q name) as Hq by (apply Hnone, list_elem_of_here).
    assert (∀ q', q' ∈ dirs1 → ¬ holds' q' name) as Hrest
        by (intros q' Hq'; by apply Hnone, list_elem_of_further).
    destruct (plist q) as [l|] eqn:Hl; [|by apply IH].
    destruct (find_ext Path (filelist' l) name EXTS) as [m|] eqn:Hf; [|by apply IH].
    exfalso. apply Hq, (find_ext_holds q l name Hl). rewrite Hf. by eexists.
Qed.

(** [which]: when it returns a path, that path is true and is what [_which]
    gives for the name (in lower case on Windows) or, failing that, for the
    name with its underscores turned into dashes; the name as given has
    precedence.  When it raises [CommandNotFound], the exception carries
    that name and the search path, and [_which] gave no true path for
    either spelling. *)
Theorem which_outcome env name :
  let pn := if WIN32 then lower name else name in
  let first := _which' env pn in
  let second := _which' env (replace_underscores pn) in
  let good r := match r with Some p => path_truthy p | None => false end in
  match which' env name with
  | Found _ p =>
      path_truthy p = true
      ∧ (if good first then first = Some p else second = Some p)
  | CommandNotFound _ pn' dirs =>
      pn' = pn ∧ dirs = path _ env ∧ good first = false ∧ good second = false
  end.
Proof.
  intros pn first second good. unfold which. fold pn. simpl. fold first second.
  destruct first as [p|]; simpl.
  - destruct (path_truthy p) eqn:Hp; [done|].
    destruct second as [q|]; simpl; [|done].
    destruct (path_truthy q) eqn:Hq; done.
  - destruct second as [q|]; simpl; [|done].
    destruct (path_truthy q) eqn:Hq; done.
Qed.

End WhichFacts.

Lemma _which_sound_and_complete_example :
  _which string SampleFS.basename SampleFS.plist false SampleFS.env "cat" = Some "/bin/cat"
  ∧ _which string SampleFS.basename SampleFS.plist false SampleFS.env "apt-get"
    = Some "/usr/bin/apt-get"
  ∧ _which string SampleFS.basename SampleFS.plist false SampleFS.env "apt_get" = None.
Proof. vm_compute. repeat split. Qed.

Lemma _which_first_directory_wins_witness :
  ∃ n, _which string SampleFS.basename SampleFS.plist false SampleFS.env "ls" = Some n
       ∧ n ∈ ["/bin/ls"; "/bin/cat"].
Proof.
  destruct (_which_first_directory_wins string SampleFS.basename SampleFS.plist false
              ["/nodir"] "/bin" ["/usr/bin"] "ls")
    as (l & n & ext & Hw & Hl & Hin & _).
  - intros q Hq (l & n & ext & Hl & _).
    apply list_elem_of_singleton in Hq. subst q. vm_compute in Hl. discriminate.
  - exists ["/bin/ls"; "/bin/cat"], "/bin/ls", EmptyString.
    split; [reflexivity|]. split; [apply list_elem_of_here|].
    split; [apply list_elem_of_here|]. reflexivity.
  - exists n. split; [exact Hw|]. vm_compute in Hl. inversion Hl; subst l. exact Hin.
Defined.

Lemma which_outcome_example :
  which string SampleFS.basename SampleFS.plist SampleFS.truthy false SampleFS.lower
    SampleFS.env "apt_get" = Found _ "/usr/bin/apt-get"
  ∧ which string SampleFS.basename SampleFS.plist SampleFS.truthy false SampleFS.lower
      SampleFS.env "no_such" = CommandNotFound _ "no_such" ["/nodir"; "/bin"; "/usr/bin"].
Proof. vm_compute. repeat split. Qed.

(** ** Spawning: command lines, context, pipelines, executers *)

Section PopenMore.
Variable Path : Type.
Variable path_str : Path → string.
Variable pathsep : ascii.
Variable os_spawn : table → PopenArgs → option Fate.

Local Notation "'Command_popen''" := (Command_popen Path path_str pathsep os_spawn).
Local Notation "'popen''" := (popen Path path_str pathsep os_spawn).
Local Notation "'run''" := (run Path path_str pathsep os_spawn).
Local Notation "'getdict''" := (getdict Path path_str pathsep).

(** [Command.popen] when it returns, with everything that goes into the
    call of [Popen]. *)
Lemma Command_popen_Ok exe args i o e kw w w' h :
  Command_popen' exe args i o e kw w = (w', Ok h) →
  ∃ cwd env f,
    match kw_cwd kw with
    | Some c => cwd = c
    | None => ∃ d, last (_dirstack _ (w_cwd _ w)) = Some d ∧ cwd = dirent_str Path path_str d
    end
    ∧ match kw_env kw with
      | Some d => env = d ∧ w_env _ w' = w_env _ w
      | None => getdict' (w_env _ w) = (w_env _ w', Ok env)
      end
    ∧ os_spawn (w_procs _ w) (mk_PopenArgs (exe :: args) exe i o e cwd env) = Some f
    ∧ h = length (w_procs _ w)
    ∧ w_cwd _ w' = w_cwd _ w
    ∧ w_procs _ w' = w_procs _ w
        ++ [mk_Popen (mk_PopenArgs (exe :: args) exe i o e cwd env) f
              (pipe_attr_of i) (pipe_attr_of o) (pipe_attr_of e)
              None (exe :: args) None 0].
Proof.
  destruct w as [env [st os] procs].
  unfold Command_popen, bind, in_cwd, in_env, in_procs, zoom, ret, modify.
  assert (∀ cwd env' d,
            (let (s', r) :=
               (let '(t, r) := Popen os_spawn
                                 (mk_PopenArgs (exe :: args) exe i o e cwd d) procs in
                (set_w_procs Path t (mk_World Path env' (mk_Workdir Path st os) procs), r)) in
             match r with
             | Ok a => (set_w_procs Path (upd a (set_cmdline (exe :: args)) (w_procs Path s')) s',
                        Ok a)
             | Raise x => (s', Raise x)
             end) = (w', Ok h) →
            ∃ f, os_spawn procs (mk_PopenArgs (exe :: args) exe i o e cwd d) = Some f
                 ∧ h = length procs ∧ w_env _ w' = env'
                 ∧ w_cwd _ w' = mk_Workdir Path st os
                 ∧ w_procs _ w' = procs
                     ++ [mk_Popen (mk_PopenArgs (exe :: args) exe i o e cwd d) f
                           (pipe_attr_of i) (pipe_attr_of o) (pipe_attr_of e)
                           None (exe :: args) None 0]) as Hspawn.
  { intros cwd env' d. unfold Popen.
    destruct (os_spawn procs _) as [f|] eqn:Hf; simpl; [|done].
    intros [= <- <-]. exists f. simpl. by rewrite upd_snoc. }
  simpl. destruct (kw_cwd kw) as [c|]; simpl.
  - destruct (kw_env kw) as [d|]; simpl.
    + intros H. apply Hspawn in H as (f & Hf & Hh & He & Hc & Hp).
      by exists c, d, f.
    + destruct (getdict' env) as [env' [d|x]] eqn:Hg; simpl; [|done].
      intros H. apply Hspawn in H as (f & Hf & Hh & He & Hc & Hp).
      exists c, d, f. by rewrite He.
  - unfold workdir_str, bind, _path, ret. simpl.
    destruct st as [|d0 st _] using rev_ind; [done|].
    rewrite py_top_snoc. simpl.
    destruct (kw_env kw) as [d|]; simpl.
    + intros H. apply Hspawn in H as (f & Hf & Hh & He & Hc & Hp).
      exists (dirent_str Path path_str d0), d, f.
      split; [exists d0; by rewrite last_snoc|]. done.
    + destruct (getdict' env) as [env' [d|x]] eqn:Hg; simpl; [|done].
      intros H. apply Hspawn in H as (f & Hf & Hh & He & Hc & Hp).
      exists (dirent_str Path path_str d0), d, f.
      split; [exists d0; by rewrite last_snoc|]. by rewrite He.
Qed.

(** Binding arguments to a command and spawning it: one process is added,
    its command line is the executable followed by the arguments in their
    order, and that is also what the handle carries as [cmdline]. *)
Theorem bound_command_line exe args i o e kw (w w' : World Path) h :
  popen' (Command_getitem exe args) i o e kw w = (w', Ok h) →
  ∃ p, w_procs _ w' = w_procs _ w ++ [p]
       ∧ w_procs _ w' !! h = Some p
       ∧ a_cmdline (p_args p) = exe :: args
       ∧ a_executable (p_args p) = exe
       ∧ cmdline p = exe :: args.
Proof.
  intros H. apply Command_popen_Ok in H as (cwd & env & f & _ & _ & _ & -> & _ & ->).
  eexists. split; [done|]. split; [by apply list_lookup_middle|]. done.
Qed.

(** The context of a spawn.  A [cwd] keyword is the directory of the
    process as given; without it the directory is the string of the top of
    the directory stack.  An [env] keyword is the environment of the
    process as given, and then the environment stack is not touched. *)
Theorem spawn_context exe args i o e kw (w w' : World Path) h p :
  Command_popen' exe args i o e kw w = (w', Ok h) →
  w_procs _ w' !! h = Some p →
  match kw_cwd kw with
  | Some c => a_cwd (p_args p) = c
  | None => ∃ d, last (_dirstack _ (w_cwd _ w)) = Some d
                 ∧ a_cwd (p_args p) = dirent_str Path path_str d
  end
  ∧ match kw_env kw with
    | Some d => a_env (p_args p) = d ∧ w_env _ w' = w_env _ w
    | None => (getdict' (w_env _ w)).2 = Ok (a_env (p_args p))
    end
  ∧ w_cwd _ w' = w_cwd _ w.
Proof.
  intros H Hp.
  apply Command_popen_Ok in H as (cwd & env & f & Hcwd & Henv & _ & -> & Hc & Hw').
  rewrite Hw', (list_lookup_middle _ [] _ _ eq_refl) in Hp. inversion Hp; subst p. simpl.
  split; [done|]. split; [|done].
  destruct (kw_env kw); [done|]. by rewrite Henv.
Qed.

(** [popen] spawns one process for every command of the unit. *)
Theorem popen_spawns_every_command u : ∀ i o e kw (w w' : World Path) h,
  popen' u i o e kw w = (w', Ok h) →
  length (w_procs _ w') = length (w_procs _ w) + leaves u.
Proof.
  induction u as [exe|exe args|src IHs dst IHd|u IH i0 o0 e0]; intros i o e kw w w' h H.
  - apply Command_popen_Ok in H as (? & ? & ? & _ & _ & _ & _ & _ & ->).
    by rewrite length_app.
  - apply Command_popen_Ok in H as (? & ? & ? & _ & _ & _ & _ & _ & ->).
    by rewrite length_app.
  - apply Pipeline_popen_inv in H as [_ H]; [|intros; by eapply popen_spec..].
    destruct H as (ws & hs & wd & t1 & ps & t2 & pd & Hs & Hd & Hws & _ & _ & _ & _
                   & Hwd & _ & _ & _ & Hw').
    apply IHs in Hs. apply IHd in Hd. simpl.
    rewrite Hw'. rewrite Hwd, Hws in Hd. rewrite Hws in Hs.
    rewrite !length_app in *. simpl in *. lia.
  - simpl in H. by apply IH in H.
Qed.

(** A stream that the caller does not ask to capture is not captured: when
    [popen] is called with a standard output other than [PIPE], the handle
    it returns has no output pipe, whatever the unit; the same for the
    standard error. *)
Lemma popen_uncaptured u : ∀ i o e kw (w w' : World Path) h,
  popen' u i o e kw w = (w', Ok h) →
  ∃ p, w_procs _ w' !! h = Some p
       ∧ (ne_PIPE o = true → stdout p = NoPipe)
       ∧ (ne_PIPE e = true → stderr p = NoPipe).
Proof.
  induction u as [exe|exe args|src IHs dst IHd|u IH i0 o0 e0]; intros i o e kw w w' h H.
  - apply Command_popen_Ok in H as (? & ? & ? & _ & _ & _ & -> & _ & ->).
    eexists. split; [by apply list_lookup_middle|]. simpl. unfold pipe_attr_of.
    split; by intros ->.
  - apply Command_popen_Ok in H as (? & ? & ? & _ & _ & _ & -> & _ & ->).
    eexists. split; [by apply list_lookup_middle|]. simpl. unfold pipe_attr_of.
    split; by intros ->.
  - apply Pipeline_popen_Ok in H
      as (ws & hs & wd & ps & pd & _ & Hd & _ & _ & _ & Hpd & _ & _ & _ & _ & Hw').
    apply IHd in Hd as (pd' & Hpd' & Ho & He).
    assert (pd' = pd) as -> by congruence.
    exists (set_srcproc hs pd). by split.
  - simpl in H. apply IH in H as (p & Hp & Ho & He). exists p. split; [done|].
    split; intros Hne.
    + apply Ho. by destruct (ne_PIPE o0) eqn:E.
    + apply He. by destruct (ne_PIPE e0) eqn:E.
Qed.

End PopenMore.

Section ExecuterFacts.
Variable Path : Type.
Variable path_str : Path → string.
Variable pathsep : ascii.
Variable os_spawn : table → PopenArgs → option Fate.

Local Notation "'Command_popen''" := (Command_popen Path path_str pathsep os_spawn).
Local Notation "'popen''" := (popen Path path_str pathsep os_spawn).
Local Notation "'run''" := (run Path path_str pathsep os_spawn).
Local Notation "'BG''" := (BG Path path_str pathsep os_spawn).
Local Notation "'FG''" := (FG Path path_str pathsep os_spawn).

Lemma snoc_singleton {A} (a : A) t p : [a] = t ++ [p] → t = [] ∧ p = a.
Proof. destruct t as [|y [|z t]]; simpl; intros H; by inversion H. Qed.

Lemma leaf_popen u i o e kw :
  is_leaf u →
  ∃ exe args, popen' u i o e kw = Command_popen' exe args i o e kw.
Proof. destruct u; try done; intros _; by eexists _, _. Qed.

(** [run] with a standard output that is not [PIPE] returns the empty
    string as the output text. *)
Lemma run_uncaptured u rc i o e kw (w w2 : World Path) res :
  ne_PIPE o = true →
  run' u rc i o e kw w = (w2, Ok res) → res.1.2 = EmptyString.
Proof.
  intros Ho. unfold run, bind.
  destruct (popen' u i o e kw w) as [w1 [h|x]] eqn:Hpopen; [|done].
  destruct (popen_uncaptured _ _ _ _ _ _ _ _ _ _ _ _ Hpopen) as (p & Hp & Hout & _).
  destruct (run_spec _ _ _ _ u rc _ _ _ _ _ _ _ _ Hpopen Hp) as [Hfresh Hrun'].
  unfold run, bind in Hrun'. rewrite Hpopen in Hrun'. rewrite Hrun'.
  rewrite (Hout Ho). simpl.
  destruct (negb (is_None rc) && _); [done|]. by intros [= _ <-].
Qed.

(** [cmd & FG]: the unit is run with [None] for its standard input, output
    and error, the streams of the caller, and with the expected exit code of
    the executer: the processes and the environment are left as that [run]
    leaves them, and an error of that [run] is the error of [cmd & FG].  As
    nothing is captured, the text that comes back when it returns is the
    empty string, whatever the unit and whatever the process writes. *)
Theorem FG_returns_empty_text rc u (w : World Path) :
  FG' rc u w
  = (let '(w2, rr) := run' u rc ENone ENone ENone no_kwargs w in
     (w2, match rr with Ok _ => Ok EmptyString | Raise x => Raise x end)).
Proof.
  unfold FG, __call__, bind, ret.
  destruct (run' u rc ENone ENone ENone no_kwargs w) as [w2 [res|x]] eqn:Hrun; [|done].
  by rewrite (run_uncaptured u rc ENone ENone ENone no_kwargs w w2 res eq_refl Hrun).
Qed.

(** [cmd & BG]: the unit is spawned with three pipes and the future handed
    back is pending: nobody has waited for the process.  A [wait] on it then
    leaves the process handles as [run] with the same expected exit code
    would have, and ends as [run] ends: with the same error, or with the
    triple [run] returns in the three fields of the future. *)
Theorem BG_then_wait_is_run rc u (w w1 : World Path) f :
  BG' rc u w = (w1, Ok f) →
  ready {| fut := f; fut_procs := w_procs _ w1 |}
  = ({| fut := f; fut_procs := w_procs _ w1 |}, Ok false)
  ∧ (∃ p, w_procs _ w1 !! proc f = Some p ∧ fresh p)
  ∧ (let '(s2, r) := wait {| fut := f; fut_procs := w_procs _ w1 |} in
     let '(w2, rr) := run' u rc PIPE PIPE PIPE no_kwargs w in
     w_procs _ w2 = fut_procs s2
     ∧ w_env _ w2 = w_env _ w1
     ∧ match rr with
       | Ok (c, out, err) =>
           r = Ok tt ∧ _returncode (fut s2) = c
           ∧ _stdout (fut s2) = Some out ∧ _stderr (fut s2) = Some err
       | Raise x => r = Raise x ∧ fut s2 = f
       end).
Proof.
  unfold BG, bind.
  destruct (popen' u PIPE PIPE PIPE no_kwargs w) as [w1' [h|x]] eqn:Hpopen; [|done].
  intros [= <- <-].
  destruct (popen_spec _ _ _ _ _ _ _ _ _ _ _ _ Hpopen) as (_ & l & p & Hw1 & Hh & Hfresh).
  assert (w_procs _ w1' !! h = Some p) as Hp.
  { rewrite Hw1. by apply list_lookup_middle. }
  split; [done|]. split; [by exists p|].
  rewrite wait_pending by done. simpl.
  destruct (run_spec _ _ _ _ u rc _ _ _ _ _ _ _ _ Hpopen Hp) as [_ ->].
  rewrite (_run_first _ _ _ rc Hp (fresh_not_stale _ Hfresh)).
  destruct (negb (is_None rc) && _); simpl; by repeat split.
Qed.

(** A pipeline of two commands.  The source is spawned first, with the
    standard input of the caller and with pipes for its output and its
    error stream, whatever the caller asked for; the destination is spawned
    second, reads the output pipe of the source, and gets the output and
    error streams of the caller.  The handle returned is the one of the
    destination. *)
Theorem pipeline_wiring srccmd dstcmd i o e kw (w w' : World Path) h :
  is_leaf srccmd → is_leaf dstcmd →
  popen' (Pipeline srccmd dstcmd) i o e kw w = (w', Ok h) →
  let hs := length (w_procs _ w) in
  h = S hs
  ∧ ∃ ps pd,
      w_procs _ w' = w_procs _ w ++ [ps; pd]
      ∧ a_stdin (p_args ps) = i
      ∧ a_stdout (p_args ps) = PIPE
      ∧ a_stderr (p_args ps) = PIPE
      ∧ a_stdin (p_args pd) = EPipe hs
      ∧ a_stdout (p_args pd) = o
      ∧ a_stderr (p_args pd) = e
      ∧ srcproc pd = Some hs.
Proof.
  intros Hls Hld H hs.
  apply Pipeline_popen_inv in H as [_ H]; [|intros; by eapply popen_spec..].
  destruct H as (ws & hs' & wd & t1 & ps & t2 & pd & Hs & Hd & Hws & Hhs & _ & _ & _
                 & Hwd & Hhd & _ & _ & Hw').
  destruct (leaf_popen srccmd i PIPE PIPE kw Hls) as (exe1 & args1 & E1).
  destruct (leaf_popen dstcmd (EPipe hs') o e kw Hld) as (exe2 & args2 & E2).
  rewrite E1 in Hs. rewrite E2 in Hd.
  apply Command_popen_Ok in Hs as (? & ? & ? & _ & _ & _ & Hhs1 & _ & Hws1).
  apply Command_popen_Ok in Hd as (? & ? & ? & _ & _ & _ & Hhd1 & _ & Hwd1).
  rewrite Hws1 in Hws. rewrite <- app_assoc in Hws.
  apply app_inv_head in Hws.
  apply snoc_singleton in Hws as [-> ->].
  rewrite Hwd1 in Hwd. rewrite <- app_assoc in Hwd.
  apply app_inv_head in Hwd.
  apply snoc_singleton in Hwd as [-> ->].
  rewrite app_nil_r in *. subst hs'. fold hs in Hhd1, Hw' |- *.
  split. { rewrite Hhd1, Hws1, length_app. simpl. lia. }
  eexists _, _. split.
  { rewrite Hw', app_nil_r, <- app_assoc. reflexivity. }
  by simpl.
Qed.

(** A pipeline whose source has its output redirected: the source leaves no
    output pipe, so the destination is spawned with the standard input of
    the caller, and once both are spawned [popen] raises [AttributeError]
    on closing the missing pipe; the processes stay, no handle is
    returned. *)
Theorem pipeline_of_redirected_source c wi wo we dstcmd i o e kw (w ws : World Path) hs :
  ne_PIPE wo = true →
  popen' (Redirection c wi wo we) i PIPE PIPE kw w = (ws, Ok hs) →
  popen' (Pipeline (Redirection c wi wo we) dstcmd) i o e kw w
  = (let '(wd, r) := popen' dstcmd ENone o e kw ws in
     (wd, match r with Ok _ => Raise AttributeError | Raise x => Raise x end)).
Proof.
  intros Hwo Hs.
  destruct (popen_uncaptured _ _ _ _ _ _ _ _ _ _ _ _ Hs) as (ps & Hps & _ & _).
  assert (stdout ps = NoPipe) as Hno.
  { simpl in Hs. rewrite Hwo in Hs.
    destruct (popen_uncaptured _ _ _ _ _ _ _ _ _ _ _ _ Hs) as (ps' & Hps' & Ho & _).
    assert (ps' = ps) as -> by congruence. by apply Ho. }
  cbn [popen]. unfold bind. fold (popen' (Redirection c wi wo we) i PIPE PIPE kw).
  change (popen' c (if ne_PIPE wi then wi else i) (if ne_PIPE wo then wo else PIPE)
            (if ne_PIPE we then we else PIPE) kw w)
    with (popen' (Redirection c wi wo we) i PIPE PIPE kw w).
  rewrite Hs. unfold in_procs at 1, zoom, stdout_of. rewrite Hps, Hno, set_w_procs_id.
  destruct (popen' dstcmd ENone o e kw ws) as [wd [hd|x]] eqn:Hd; [|done].
  destruct (popen_spec _ _ _ _ _ _ _ _ _ _ _ _ Hd) as (_ & l & p & Hwd & _ & _).
  unfold in_procs at 1, zoom, stdout_close.
  rewrite Hwd, (lookup_app_l_Some _ _ _ _ (lookup_app_l_Some _ _ _ _ Hps)), Hno.
  by rewrite <- Hwd, set_w_procs_id.
Qed.

End ExecuterFacts.

(** ** Futures and redirections: more edge behaviour *)

(** Reading an attribute of a pending future collects the process: when the
    exit code passes the test, the first read waits for the process and
    returns what was collected, the future is resolved from then on, and
    the other attributes are read from the future without another call of
    [communicate]. *)
Theorem accessor_collects_once s p :
  _returncode (fut s) = None →
  fut_procs s !! proc (fut s) = Some p →
  fresh p →
  negb (is_None (_expected_retcode (fut s)))
    && returncode_ne (Some (f_exit (p_fate p))) (_expected_retcode (fut s)) = false →
  let out := default EmptyString (capture (stdout p) (f_out (p_fate p))) in
  let err := default EmptyString (capture (stderr p) (f_err (p_fate p))) in
  ∃ s1 p1,
    Future_returncode s = (s1, Ok (Some (f_exit (p_fate p))))
    ∧ ready s1 = (s1, Ok true)
    ∧ Future_stdout s1 = (s1, Ok (Some out))
    ∧ Future_stderr s1 = (s1, Ok (Some err))
    ∧ fut_procs s1 !! proc (fut s) = Some p1
    ∧ communicated p1 = 1.
Proof.
  intros Hpend Hp Hfresh Htest out err.
  pose proof (_run_first _ _ _ (_expected_retcode (fut s)) Hp (fresh_not_stale _ Hfresh))
    as Hrun. cbv zeta in Hrun. rewrite Htest in Hrun.
  rewrite Future_returncode_spec, wait_pending by done. rewrite Hrun.
  eexists _, (collected p). split; [done|].
  rewrite Future_stdout_spec, Future_stderr_spec, ready_spec.
  rewrite wait_resolved by done. simpl.
  rewrite !or_empty_default.
  split; [done|]. split; [done|]. split; [done|].
  split; [by apply upd_lookup_eq|].
  destruct Hfresh as (_ & _ & _ & _ & Hc & _). simpl. by rewrite Hc.
Qed.

(** The three files of a redirection are opened one after the other, and
    what has been opened stays opened: when the output file can be written
    and the error file cannot, the constructor raises the error of [open]
    for the error file, and the output file has been created or cut to the
    empty file all the same. *)
Theorem redirection_partial_open cmd i out_name err_name o :
  out_name ≠ err_name →
  can_write o out_name →
  ¬ can_write o err_name →
  ∃ o', Redirection_init cmd (AEnd i) (AStr out_name) (AStr err_name) o
        = (o', Raise (IOError err_name))
        ∧ truncated out_name o o'.
Proof.
  intros Hne Hout Herr.
  destruct (open_w_ok _ _ Hout) as (o' & Ho & Ht).
  exists o'. split; [|done].
  unfold Redirection_init, open_if_str, bind, ret. rewrite Ho.
  rewrite open_w_fail; [done|].
  intros Hc. apply Herr. unfold can_write in *.
  destruct Ht as (_ & Hother & _).
  rewrite <- (Hother err_name) by done.
  destruct (os_files o' !! err_name); [done|].
  assert (os_nocreate o' = os_nocreate o) as <-; [|done].
  unfold open in Ho. destruct (os_files o !! out_name) as [n|].
  - destruct (n_writable n); by inversion Ho.
  - destruct (bool_decide _); by inversion Ho.
Qed.

(** ** The further properties on the sample world *)

Lemma delitem_PATH_comes_back_witness :
  let e1 := (__delitem__ Sample.Path "PATH" Sample.appended_world.(w_env _)).1 in
  __contains__ _ "PATH" e1 = (e1, Ok false)
  ∧ (getdict Sample.Path Sample.path_str Sample.pathsep e1).2
    = Ok (<["PATH" := "/bin:/usr/bin:/lalalala"]>
            ({[ "PATH" := "/bin:/usr/bin"; "HOME" := "/home" ]} : gmap string string)).
Proof.
  destruct (delitem_PATH_comes_back Sample.Path Sample.path_str Sample.pathsep []
              {[ "PATH" := "/bin:/usr/bin"; "HOME" := "/home" ]}
              ["/bin"; "/usr/bin"; "/lalalala"]) as [_ H].
  destruct (H "/bin:/usr/bin" eq_refl) as (_ & Hc & Hg & _).
  split; [exact Hc | exact Hg].
Defined.

Lemma bound_command_line_witness :
  ∃ p, (Sample.sample_popen (Command_getitem "/bin/grep" ["-v"; "a"]) PIPE PIPE PIPE
          no_kwargs Sample.sample_world).1.(w_procs _) = [p]
       ∧ cmdline p = ["/bin/grep"; "-v"; "a"].
Proof.
  destruct (bound_command_line Sample.Path Sample.path_str Sample.pathsep
              Sample.sample_spawn "/bin/grep" ["-v"; "a"] PIPE PIPE PIPE no_kwargs
              Sample.sample_world
              (Sample.sample_popen (Command_getitem "/bin/grep" ["-v"; "a"]) PIPE PIPE PIPE
                 no_kwargs Sample.sample_world).1 0)
    as (p & Hw & _ & _ & _ & Hc).
  - vm_compute. reflexivity.
  - exists p. split; [exact Hw | exact Hc].
Defined.

Lemma spawn_context_witness :
  let kw := {| kw_cwd := Some "/tmp"; kw_env := Some {[ "LANG" := "C" ]} |} in
  let out := Command_popen Sample.Path Sample.path_str Sample.pathsep Sample.sample_spawn
               "/bin/ls" [] PIPE PIPE PIPE kw Sample.appended_world in
  w_env _ out.1 = w_env _ Sample.appended_world
  ∧ ∃ p, w_procs _ out.1 !! 0 = Some p
         ∧ a_cwd (p_args p) = "/tmp" ∧ a_env (p_args p) = {[ "LANG" := "C" ]}.
Proof.
  intros kw out.
  assert (∃ p, w_procs _ out.1 !! 0 = Some p) as [p Hp] by (vm_compute; by eexists).
  destruct (spawn_context Sample.Path Sample.path_str Sample.pathsep Sample.sample_spawn
              "/bin/ls" [] PIPE PIPE PIPE kw Sample.appended_world out.1 0 p)
    as (Hcwd & [Henv Hsame] & _).
  - vm_compute. reflexivity.
  - exact Hp.
  - split; [exact Hsame|]. exists p. split; [exact Hp|]. split; [exact Hcwd | exact Henv].
Defined.

Lemma popen_spawns_every_command_witness :
  let u := Pipeline (Pipeline Sample.ls Sample.grep_a)
             (Redirection Sample.grep_a PIPE (EFile (mk_file "out.txt" ModeW)) PIPE) in
  length (Sample.sample_popen u PIPE PIPE PIPE no_kwargs Sample.sample_world).1.(w_procs _) = 3.
Proof.
  intros u.
  apply (popen_spawns_every_command Sample.Path Sample.path_str Sample.pathsep
           Sample.sample_spawn u PIPE PIPE PIPE no_kwargs Sample.sample_world _ 2).
  vm_compute. reflexivity.
Defined.

Lemma FG_returns_empty_text_witness :
  let out := FG Sample.Path Sample.path_str Sample.pathsep Noisy.spawn (VInt 0) Sample.ls
               Sample.sample_world in
  out.2 = Ok EmptyString
  ∧ ∃ p, w_procs _ out.1 !! 0 = Some p
         ∧ a_stdin (p_args p) = ENone
         ∧ a_stdout (p_args p) = ENone
         ∧ a_stderr (p_args p) = ENone
         ∧ returncode p = Some 0%Z.
Proof.
  intros out. subst out.
  rewrite (FG_returns_empty_text Sample.Path Sample.path_str Sample.pathsep Noisy.spawn
             (VInt 0) Sample.ls Sample.sample_world).
  vm_compute. split; [reflexivity|]. eexists. repeat split.
Defined.

Lemma BG_then_wait_is_run_witness :
  let bg := BG Sample.Path Sample.path_str Sample.pathsep Sample.sample_spawn (VInt 0)
              Sample.false_ Sample.sample_world in
  let s := {| fut := Future_init 0 (VInt 0); fut_procs := w_procs _ bg.1 |} in
  ready s = (s, Ok false)
  ∧ (wait s).2 = Raise (ProcessExecutionError ["/bin/false"] (Some 1%Z) "/bin/false"
                          EmptyString)
  ∧ (Sample.sample_run Sample.false_ (VInt 0) PIPE PIPE PIPE no_kwargs
       Sample.sample_world).2
    = Raise (ProcessExecutionError ["/bin/false"] (Some 1%Z) "/bin/false" EmptyString).
Proof.
  intros bg s.
  destruct (BG_then_wait_is_run Sample.Path Sample.path_str Sample.pathsep
              Sample.sample_spawn (VInt 0) Sample.false_ Sample.sample_world bg.1
              (Future_init 0 (VInt 0))) as (Hready & _ & _).
  - vm_compute. reflexivity.
  - split; [exact Hready|]. split; vm_compute; reflexivity.
Defined.

Lemma pipeline_wiring_witness :
  ∃ ps pd,
    (Sample.sample_popen (Pipeline Sample.ls Sample.grep_a) ENone
       (EFile (mk_file "out.txt" ModeW)) (EInt 2) no_kwargs Sample.sample_world).1.(w_procs _)
    = [ps; pd]
    ∧ a_stdin (p_args ps) = ENone ∧ a_stdout (p_args ps) = PIPE
    ∧ a_stderr (p_args ps) = PIPE
    ∧ a_stdin (p_args pd) = EPipe 0
    ∧ a_stdout (p_args pd) = EFile (mk_file "out.txt" ModeW)
    ∧ a_stderr (p_args pd) = EInt 2.
Proof.
  destruct (pipeline_wiring Sample.Path Sample.path_str Sample.pathsep Sample.sample_spawn
              Sample.ls Sample.grep_a ENone (EFile (mk_file "out.txt" ModeW)) (EInt 2)
              no_kwargs Sample.sample_world
              (Sample.sample_popen (Pipeline Sample.ls Sample.grep_a) ENone
                 (EFile (mk_file "out.txt" ModeW)) (EInt 2) no_kwargs
                 Sample.sample_world).1 1)
    as (_ & ps & pd & Hw & H1 & H2 & H3 & H4 & H5 & H6 & _).
  - exact I.
  - exact I.
  - vm_compute. reflexivity.
  - exists ps, pd. repeat split; assumption.
Defined.

Lemma pipeline_of_redirected_source_witness :
  let src := Redirection Sample.ls PIPE (EFile (mk_file "out.txt" ModeW)) PIPE in
  let out := Sample.sample_popen (Pipeline src Sample.grep_a) PIPE PIPE PIPE no_kwargs
               Sample.sample_world in
  out.2 = Raise AttributeError ∧ length (w_procs _ out.1) = 2.
Proof.
  intros src out.
  pose proof (pipeline_of_redirected_source Sample.Path Sample.path_str Sample.pathsep
                Sample.sample_spawn Sample.ls PIPE (EFile (mk_file "out.txt" ModeW)) PIPE
                Sample.grep_a PIPE PIPE PIPE no_kwargs Sample.sample_world
                (Sample.sample_popen src PIPE PIPE PIPE no_kwargs Sample.sample_world).1 0
                eq_refl) as H.
  assert (out = (let '(wd, r) := Sample.sample_popen Sample.grep_a ENone PIPE PIPE no_kwargs
                                   (Sample.sample_popen src PIPE PIPE PIPE no_kwargs
                                      Sample.sample_world).1 in
                 (wd, match r with Ok _ => Raise AttributeError | Raise x => Raise x end)))
    as ->.
  { apply H. vm_compute. reflexivity. }
  vm_compute. split; reflexivity.
Defined.

Lemma accessor_collects_once_witness :
  let s := {| fut := Future_init 0 VNone;
              fut_procs := (Sample.sample_popen Sample.false_ PIPE PIPE PIPE no_kwargs
                              Sample.sample_world).1.(w_procs _) |} in
  ∃ s1, Future_returncode s = (s1, Ok (Some 1%Z))
        ∧ Future_stdout s1 = (s1, Ok (Some "/bin/false")).
Proof.
  intros s.
  destruct (accessor_collects_once s
              (mk_Popen
                 (mk_PopenArgs ["/bin/false"] "/bin/false" PIPE PIPE PIPE "/home"
                    {[ "PATH" := "/bin:/usr/bin"; "HOME" := "/home" ]})
                 (mk_Fate 1 "/bin/false" EmptyString None)
                 PipeOpen PipeOpen PipeOpen None ["/bin/false"] None 0))
    as (s1 & p1 & Hrc & _ & Hout & _).
  - reflexivity.
  - vm_compute. reflexivity.
  - repeat split.
  - reflexivity.
  - exists s1. split; [exact Hrc | exact Hout].
Defined.

Lemma redirection_partial_open_witness :
  ∃ o', Redirection_init Sample.ls (AEnd PIPE) (AStr "in.txt") (AStr "/nodir/out.txt")
          Sample.sample_os = (o', Raise (IOError "/nodir/out.txt"))
        ∧ ∃ n, os_files o' !! "in.txt" = Some n ∧ n_content n = EmptyString.
Proof.
  destruct (redirection_partial_open Sample.ls PIPE "in.txt" "/nodir/out.txt"
              Sample.sample_os) as (o' & Hr & Ht & _).
  - discriminate.
  - vm_compute. reflexivity.
  - vm_compute. intros H. apply H. reflexivity.
  - exists o'. split; [exact Hr | exact Ht].
Defined.
